(** * Chunked concurrent column: ThreadSafeVector and ConcurrentVectorImpl

    A shallow embedding of [internal/core/src/segcore/ConcurrentVector.h]
    and the properties of its specification.

    Modelling conventions.
    - [int64_t], [ssize_t] values are integers of [Z] between [int64_min]
      and [int64_max].  The sum [element_offset + element_count] of
      [set_data] is the machine sum, which wraps around where it leaves
      the type ([add_ssize]); the other sums and products are bounded by
      that sum and by the lengths of the source and of a chunk, which are
      lengths a buffer can have, and are those of [Z].
      [/] and [%] of C++ truncate towards zero: [Z.quot], [Z.rem].
    - A call either returns, or stops at a failed [Assert], or leaves the
      contract of the language and of its containers (division by zero,
      an index outside a container, a copy outside a buffer, a container
      length that is not a length): type [outcome].
    - The model is sequential: the mutex and the atomic counter of
      [ThreadSafeVector] order concurrent calls, one call is one step.
    - A [FixedVector<Type>] is the list of its elements; a [const Type*]
      source is the list of the components readable from it, a buffer of
      the caller's and no part of the column; a pointer into a chunk is
      the chunk's index and a component position.  Memory is never
      exhausted. *)

From Stdlib Require Import ZArith Lia.
From stdpp Require Import base tactics option list.
From Equations Require Import Equations.

Local Open Scope Z_scope.

(** ** Outcomes of a call *)

Inductive outcome (A : Type) : Type :=
| Returns (a : A)   (* the call returned [a] *)
| Fatal             (* an [Assert] of utils/EasyAssert.h failed *)
| Undefined.        (* outside the contract of the language or a container *)
Arguments Returns {A} a.
Arguments Fatal {A}.
Arguments Undefined {A}.

#[global] Instance outcome_ret : MRet outcome := fun A a => Returns a.
#[global] Instance outcome_bind : MBind outcome := fun A B f o =>
  match o with
  | Returns a => f a
  | Fatal => Fatal
  | Undefined => Undefined
  end.

Definition returned {A} (o : outcome A) : Prop := ∃ a, o = Returns a.

(** Reading a container at a signed index. *)
Definition zlookup {A} (l : list A) (i : Z) : option A :=
  if decide (0 ≤ i) then l !! Z.to_nat i else None.

Definition zlen {A} (l : list A) : Z := Z.of_nat (length l).

(** ** [ssize_t], [int64_t] *)

Definition int64_max : Z := 9223372036854775807.
Definition int64_min : Z := -9223372036854775808.

(** The values of the type. *)
Definition in_int64 (z : Z) : Prop := int64_min ≤ z ≤ int64_max.

#[global] Instance in_int64_dec (z : Z) : Decision (in_int64 z).
Proof. unfold in_int64. apply _. Defined.

(** The value of the type that is [z] modulo [2 ^ 64]. *)
Definition wrap64 (z : Z) : Z := (z - int64_min) `mod` 2 ^ 64 + int64_min.

(** [a + b] on [ssize_t]: the sum of two values of the type, wrapped
    around where it is no value of the type, as the addition of the
    machine does.  Operands that are no values of the type are no
    arguments of a call; their sum is left as it is. *)
Definition add_ssize (a b : Z) : Z :=
  if decide (in_int64 a ∧ in_int64 b) then wrap64 (a + b) else a + b.

(** ** ThreadSafeVector<Type> *)

Module ThreadSafeVector.
Section Generic.
(** [Type] of the elements, [Args] of their constructor. *)
Context {Elem Args : Type}.
Variable construct : Args → outcome Elem.

(** [std::atomic<int64_t> size_ = 0; std::deque<Type> vec_;] *)
Record t : Type := mk { size_ : Z; vec_ : list Elem }.

Definition empty : t := mk 0 [].

(** [while (vec_.size() < size) { vec_.emplace_back(args); ++size_; }]
    [size] is positive where the loop is entered from a state whose
    counter is not negative, so that the comparison, unsigned in C++,
    is the comparison of [Z]. *)
Equations? emplace_loop (size : Z) (args : Args) (s : t) : outcome t
  by wf (Z.to_nat (size - zlen (vec_ s))) lt :=
emplace_loop size args s with decide (zlen (vec_ s) < size) := {
  | left Hlt with construct args := {
      | Returns e => emplace_loop size args (mk (size_ s + 1) (vec_ s ++ [e]))
      | Fatal => Fatal
      | Undefined => Undefined }
  | right _ => Returns s }.
Proof. unfold zlen in *. cbn. rewrite length_app. cbn. lia. Qed.

(** [emplace_to_at_least(size, args...)] *)
Definition emplace_to_at_least (s : t) (size : Z) (args : Args) : outcome t :=
  if decide (size ≤ size_ s) then Returns s
  else emplace_loop size args s.

(** [operator[](index)], const and not: the element at [index]. *)
Definition get (s : t) (index : Z) : outcome Elem :=
  if decide (index < size_ s) then
    match zlookup (vec_ s) index with
    | Some e => Returns e
    | None => Undefined
    end
  else Fatal.

(** A write through the reference that the mutable [operator[]] returned:
    the element of the deque itself is changed. *)
Definition put (s : t) (index : Z) (e : Elem) : t :=
  mk (size_ s) (<[Z.to_nat index := e]> (vec_ s)).

(** [size()] *)
Definition size (s : t) : Z := size_ s.

(** The calls a client can make, and a client making a sequence of
    them one after the other. *)
Inductive call : Type :=
| Emplace (size : Z) (args : Args)
| Get (index : Z)
| Size.

Definition step (s : t) (c : call) : outcome t :=
  match c with
  | Emplace n args => emplace_to_at_least s n args
  | Get index => _ ← get s index; mret s
  | Size => mret s
  end.

Fixpoint run (s : t) (calls : list call) : outcome t :=
  match calls with
  | [] => mret s
  | c :: calls => s' ← step s c; run s' calls
  end.

(** The published counter is the number of elements present. *)
Definition published_ok (s : t) : Prop := size_ s = zlen (vec_ s).

End Generic.
Arguments t : clear implicits.
Arguments call : clear implicits.
End ThreadSafeVector.

(** ** utils/tools.h *)

(** Modelled from the spec: [upper_div] of utils/tools.h, which is not part
    of the sources at hand; the specification gives it as
    [ceil(element_count / chunk_capacity)].  A zero divisor has no
    quotient. *)
Definition upper_div (x y : Z) : outcome Z :=
  if decide (y = 0) then Undefined else Returns (- ((- x) `div` y)).

(** ** FixedVector<Type> and raw buffers *)

Section Buffers.
Context {T : Type}.
(** The value of a value-initialised [Type]. *)
Variable dflt : T.

(** [FixedVector<Type>(n)]: [n] value-initialised elements.  A negative
    [n] is no length for the container. *)
Definition new_chunk (n : Z) : outcome (list T) :=
  if decide (0 ≤ n) then Returns (replicate (Z.to_nat n) dflt) else Undefined.

(** [std::copy_n(source + from, n, ptr + to)] where [ptr] is the start of
    the buffer [dst]. *)
Definition copy_n (source : list T) (from n : Z) (dst : list T) (to : Z)
  : outcome (list T) :=
  if decide (n ≤ 0) then Returns dst
  else if decide (0 ≤ from ∧ from + n ≤ zlen source ∧ 0 ≤ to ∧ to + n ≤ zlen dst)
  then Returns (list_inserts (Z.to_nat to)
                  (take (Z.to_nat n) (drop (Z.to_nat from) source)) dst)
  else Undefined.

(** [chunk[i]] of a [FixedVector]. *)
Definition at_index (chunk : list T) (i : Z) : outcome T :=
  match zlookup chunk i with
  | Some x => Returns x
  | None => Undefined
  end.
End Buffers.

(** ** ConcurrentVectorImpl<Type, is_scalar> *)

Module ConcurrentVectorImpl.
Import ThreadSafeVector.

(** A [const Type*] into the column: a chunk and a position in it. *)
Record pointer : Type := Ptr { p_chunk : Z; p_pos : Z }.

Section Impl.
Context {T : Type}.
Variable dflt : T.

(** [using Chunk = FixedVector<Type>] *)
Definition Chunk : Type := list T.

(** [chunk_size_] of [VectorBase], [Dim] and [chunks_]; [is_scalar] is
    the template argument. *)
Record t : Type := mk {
  is_scalar : bool;
  chunk_size_ : Z;
  Dim : Z;
  chunks_ : ThreadSafeVector.t Chunk
}.

Definition with_chunks (c : t) (ch : ThreadSafeVector.t Chunk) : t :=
  mk (is_scalar c) (chunk_size_ c) (Dim c) ch.

(** [ConcurrentVectorImpl(dim, chunk_size)] *)
Definition create (scalar : bool) (dim chunk_size : Z) : outcome t :=
  let c := mk scalar chunk_size (if scalar then 1 else dim) empty in
  if (if scalar then bool_decide (dim = 1) else bool_decide (dim ≠ 1))
  then Returns c else Fatal.

(** [get_chunk_size()] *)
Definition get_chunk_size (c : t) : Z := chunk_size_ c.

(** [num_chunk()] *)
Definition num_chunk (c : t) : Z := size (chunks_ c).

(** [grow_to_at_least(element_count)] *)
Definition grow_to_at_least (c : t) (element_count : Z) : outcome t :=
  chunk_count ← upper_div element_count (chunk_size_ c);
  ch ← emplace_to_at_least (new_chunk dflt) (chunks_ c) chunk_count
         (Dim c * chunk_size_ c);
  mret (with_chunks c ch).

(** [fill_chunk(chunk_id, chunk_offset, element_count, source, source_offset)] *)
Definition fill_chunk (c : t) (chunk_id chunk_offset element_count : Z)
    (source : list T) (source_offset : Z) : outcome t :=
  if decide (element_count ≤ 0) then Returns c
  else
    let chunk_max_size := size (chunks_ c) in
    if decide (chunk_id < chunk_max_size) then
      chunk ← get (chunks_ c) chunk_id;
      filled ← copy_n source (source_offset * Dim c) (element_count * Dim c)
                 chunk (chunk_offset * Dim c);
      mret (with_chunks c (put (chunks_ c) chunk_id filled))
    else Fatal.

(** The variables of [set_data] that its middle loop updates. *)
Record cursor : Type := Cursor {
  cur_col : t;
  cur_chunk_id : Z;
  cur_source_offset : Z;
  cur_element_count : Z
}.

(** [while (element_count >= chunk_size_) { fill_chunk(chunk_id, 0,
    chunk_size_, source, source_offset); source_offset += chunk_size_;
    element_count -= chunk_size_; ++chunk_id; }]
    With a [chunk_size_] that is not positive the count never falls under
    it and the loop runs until its counters overflow. *)
Equations? middle (source : list T) (k : cursor) : outcome cursor
  by wf (Z.to_nat (cur_element_count k)) lt :=
middle source k with decide (chunk_size_ (cur_col k) ≤ cur_element_count k) := {
  | left Hge with decide (0 < chunk_size_ (cur_col k)) := {
      | left Hpos with fill_chunk (cur_col k) (cur_chunk_id k) 0
                         (chunk_size_ (cur_col k)) source (cur_source_offset k) := {
          | Returns c' =>
              middle source
                (Cursor c' (cur_chunk_id k + 1)
                   (cur_source_offset k + chunk_size_ (cur_col k))
                   (cur_element_count k - chunk_size_ (cur_col k)))
          | Fatal => Fatal
          | Undefined => Undefined }
      | right _ => Undefined }
  | right _ => Returns k }.
Proof. cbn. lia. Qed.

(** [set_data(element_offset, source, element_count)] *)
Definition set_data (c : t) (element_offset : Z) (source : list T)
    (element_count : Z) : outcome t :=
  if decide (element_count = 0) then Returns c
  else
    c ← grow_to_at_least c (add_ssize element_offset element_count);
    if decide (chunk_size_ c = 0) then Undefined
    else
      let chunk_id := element_offset `quot` chunk_size_ c in
      let chunk_offset := element_offset `rem` chunk_size_ c in
      let source_offset := 0 in
      if decide (chunk_offset + element_count ≤ chunk_size_ c) then
        fill_chunk c chunk_id chunk_offset element_count source source_offset
      else
        let first_size := chunk_size_ c - chunk_offset in
        c ← fill_chunk c chunk_id chunk_offset first_size source source_offset;
        let source_offset := source_offset + (chunk_size_ c - chunk_offset) in
        let element_count := element_count - first_size in
        let chunk_id := chunk_id + 1 in
        k ← middle source (Cursor c chunk_id source_offset element_count);
        if decide (0 < cur_element_count k) then
          fill_chunk (cur_col k) (cur_chunk_id k) 0 (cur_element_count k)
            source (cur_source_offset k)
        else Returns (cur_col k).

(** [set_data_raw(element_offset, source, element_count)]: the cast of
    [void*] to [const Type*] is the identity on the model of a source. *)
Definition set_data_raw (c : t) (element_offset : Z) (source : list T)
    (element_count : Z) : outcome t :=
  set_data c element_offset source element_count.

(** [get_chunk(chunk_index)] *)
Definition get_chunk (c : t) (chunk_index : Z) : outcome Chunk :=
  get (chunks_ c) chunk_index.

(** [get_element(element_index)]: [get_chunk(chunk_id).data() +
    chunk_offset * Dim]. *)
Definition get_element (c : t) (element_index : Z) : outcome pointer :=
  if decide (chunk_size_ c = 0) then Undefined
  else
    let chunk_id := element_index `quot` chunk_size_ c in
    let chunk_offset := element_index `rem` chunk_size_ c in
    _ ← get_chunk c chunk_id;
    mret (Ptr chunk_id (chunk_offset * Dim c)).

(** [operator[](element_index)] *)
Definition subscript (c : t) (element_index : Z) : outcome T :=
  if decide (Dim c = 1) then
    if decide (chunk_size_ c = 0) then Undefined
    else
      let chunk_id := element_index `quot` chunk_size_ c in
      let chunk_offset := element_index `rem` chunk_size_ c in
      chunk ← get_chunk c chunk_id;
      at_index chunk chunk_offset
  else Fatal.

(** What a caller reads through a pointer [p]: [n] components from
    [p[0]] on, all of them inside the chunk that [p] points into. *)
Definition load (c : t) (p : pointer) (n : Z) : outcome (list T) :=
  match zlookup (vec_ (chunks_ c)) (p_chunk p) with
  | Some chunk =>
      if decide (0 ≤ n ∧ 0 ≤ p_pos p ∧ p_pos p + n ≤ zlen chunk)
      then Returns (take (Z.to_nat n) (drop (Z.to_nat (p_pos p)) chunk))
      else Undefined
  | None => Undefined
  end.

(** The calls of a client of the column, and a sequence of them. *)
Inductive call : Type :=
| Grow (element_count : Z)
| SetData (element_offset : Z) (source : list T) (element_count : Z)
| SetDataRaw (element_offset : Z) (source : list T) (element_count : Z)
| GetChunk (chunk_index : Z)
| GetElement (element_index : Z)
| Subscript (element_index : Z)
| NumChunk
| GetChunkSize.

Definition step (c : t) (op : call) : outcome t :=
  match op with
  | Grow n => grow_to_at_least c n
  | SetData off source n => set_data c off source n
  | SetDataRaw off source n => set_data_raw c off source n
  | GetChunk i => _ ← get_chunk c i; mret c
  | GetElement i => _ ← get_element c i; mret c
  | Subscript i => _ ← subscript c i; mret c
  | NumChunk => mret c
  | GetChunkSize => mret c
  end.

Fixpoint run (c : t) (ops : list call) : outcome t :=
  match ops with
  | [] => mret c
  | op :: ops => c' ← step c op; run c' ops
  end.

(** A column in use: a positive chunk capacity, a dimension that is a
    length, the counter of the collection right, and every chunk of
    [Dim * chunk_size_] components. *)
Record wf (c : t) : Prop := Wf {
  wf_chunk_size : 0 < chunk_size_ c;
  wf_Dim : 0 ≤ Dim c;
  wf_published : published_ok (chunks_ c);
  wf_chunks : Forall (λ chunk : Chunk, zlen chunk = Dim c * chunk_size_ c)
                (vec_ (chunks_ c))
}.

(** The component at position [pos] of chunk [ch]. *)
Definition cell (c : t) (ch pos : Z) : option T :=
  chunk ← zlookup (vec_ (chunks_ c)) ch; zlookup chunk pos.


(** [q] is [ceil(n / d)]: the least [q] with [n ≤ q * d]. *)
Definition is_ceil_div (n d q : Z) : Prop := (q - 1) * d < n ≤ q * d.

(** Two states of one column: the same parameters, the same number of
    chunks. *)
Definition same_shape (c c' : t) : Prop :=
  is_scalar c' = is_scalar c ∧ chunk_size_ c' = chunk_size_ c
  ∧ Dim c' = Dim c ∧ num_chunk c' = num_chunk c.

(** The elements [off .. off + done - 1] of [c] are the first [done]
    elements of [source]: element [ch * chunk_size_ + r] has its
    component [j] at position [r * Dim + j] of chunk [ch]. *)
Definition stored (c : t) (source : list T) (off done : Z) : Prop :=
  ∀ ch r j, 0 ≤ r < chunk_size_ c → 0 ≤ j < Dim c →
    off ≤ ch * chunk_size_ c + r < off + done →
    cell c ch (r * Dim c + j)
    = zlookup source ((ch * chunk_size_ c + r - off) * Dim c + j).

(** The other elements of [c] are those of [c0]. *)
Definition kept (c0 c : t) (off done : Z) : Prop :=
  ∀ ch r j, 0 ≤ r < chunk_size_ c → 0 ≤ j < Dim c →
    ¬ (off ≤ ch * chunk_size_ c + r < off + done) →
    cell c ch (r * Dim c + j) = cell c0 ch (r * Dim c + j).

(** [c'] is a later state of [c]: the parameters are those of [c], no
    chunk has gone, and every chunk of [c] is at its index in [c'] with
    the length it had. *)
Definition extends (c c' : t) : Prop :=
  is_scalar c' = is_scalar c ∧ chunk_size_ c' = chunk_size_ c
  ∧ Dim c' = Dim c
  ∧ num_chunk c ≤ num_chunk c'
  ∧ (published_ok (chunks_ c) → published_ok (chunks_ c'))
  ∧ ∀ (i : nat) chunk, vec_ (chunks_ c) !! i = Some chunk →
      ∃ chunk', vec_ (chunks_ c') !! i = Some chunk'
                ∧ length chunk' = length chunk.

(** [c] is [c0] with [done] elements of [source] written from element
    [off] on. *)
Record written (c0 c : t) (source : list T) (off done : Z) : Prop := Written {
  written_wf : wf c;
  written_shape : same_shape c0 c;
  written_stored : stored c source off done;
  written_kept : kept c0 c off done
}.
End Impl.
End ConcurrentVectorImpl.

(** ** The typed front-ends [ConcurrentVector<...>] *)

Module ConcurrentVector.
Import ConcurrentVectorImpl.

(** [ConcurrentVector<Type>(chunk_size)]: a scalar column. *)
Definition scalar {T : Type} (chunk_size : Z) : outcome (@ConcurrentVectorImpl.t T) :=
  create true 1 chunk_size.

(** [ConcurrentVector<FloatVector>(dim, chunk_size)] *)
Definition float_vector {T : Type} (dim chunk_size : Z)
  : outcome (@ConcurrentVectorImpl.t T) :=
  create false dim chunk_size.

(** [ConcurrentVector<BinaryVector>]: the base and [binary_dim_]. *)
Record binary (T : Type) : Type := Binary {
  binary_base : @ConcurrentVectorImpl.t T;
  binary_dim_ : Z
}.
Arguments Binary {T}.
Arguments binary_base {T}.
Arguments binary_dim_ {T}.

(** [ConcurrentVector<BinaryVector>(dim, chunk_size)]: the base class is
    constructed first, with [dim / 8]; then the body asserts
    [dim % 8 == 0]. *)
Definition binary_vector {T : Type} (dim chunk_size : Z) : outcome (binary T) :=
  base ← create false (dim `quot` 8) chunk_size;
  if decide (dim `rem` 8 = 0) then Returns (Binary base dim) else Fatal.

End ConcurrentVector.


(** ** Columns of the examples *)

Module Examples.
Import ConcurrentVectorImpl.

(** A scalar column of chunk capacity 4 after [grow_to_at_least(8)]. *)
Definition two_chunks : @ConcurrentVectorImpl.t Z :=
  ConcurrentVectorImpl.mk true 4 1
    (ThreadSafeVector.mk 2 [[0; 0; 0; 0]; [0; 0; 0; 0]]).

(** A fresh column of vectors of dimension 2, two elements a chunk. *)
Definition pairs : @ConcurrentVectorImpl.t Z :=
  ConcurrentVectorImpl.mk false 2 2 ThreadSafeVector.empty.


(** The scalar column [two_chunks] after [grow_to_at_least(10)]. *)
Definition three_chunks : @ConcurrentVectorImpl.t Z :=
  ConcurrentVectorImpl.mk true 4 1
    (ThreadSafeVector.mk 3 [[0; 0; 0; 0]; [0; 0; 0; 0]; [0; 0; 0; 0]]).

End Examples.

(** * Properties *)

(** ** Outcomes and signed lookups *)

Lemma bind_returns {A B} (o : outcome A) (f : A → outcome B) b :
  o ≫= f = Returns b ↔ ∃ a, o = Returns a ∧ f a = Returns b.
Proof.
  destruct o as [a| |]; cbn; split.
  - eauto.
  - intros (a' & [= <-] & ?). done.
  - discriminate.
  - intros (? & [=] & ?).
  - discriminate.
  - intros (? & [=] & ?).
Qed.

Lemma zlen_nonneg {A} (l : list A) : 0 ≤ zlen l.
Proof. unfold zlen. lia. Qed.

Lemma zlen_app {A} (l k : list A) : zlen (l ++ k) = zlen l + zlen k.
Proof. unfold zlen. rewrite length_app. lia. Qed.

Lemma zlen_cons {A} (x : A) (l : list A) : zlen (x :: l) = 1 + zlen l.
Proof. unfold zlen. cbn [length]. lia. Qed.

Lemma zlen_replicate {A} (n : nat) (x : A) : zlen (replicate n x) = Z.of_nat n.
Proof. unfold zlen. by rewrite length_replicate. Qed.

Lemma zlookup_Some {A} (l : list A) (i : Z) :
  0 ≤ i < zlen l → ∃ x, zlookup l i = Some x.
Proof.
  intros [? ?]. unfold zlookup, zlen in *. rewrite decide_True by done.
  destruct (lookup_lt_is_Some_2 l (Z.to_nat i)) as [x Hx]; [lia|]. eauto.
Qed.

Lemma zlookup_None {A} (l : list A) (i : Z) :
  i < 0 ∨ zlen l ≤ i → zlookup l i = None.
Proof.
  intros Hi. unfold zlookup, zlen in *. case_decide; [|done].
  apply lookup_ge_None. lia.
Qed.

Lemma zlookup_lt {A} (l : list A) (i : Z) x :
  zlookup l i = Some x → 0 ≤ i < zlen l.
Proof.
  unfold zlookup, zlen. case_decide; [|done]. intros Hx%lookup_lt_Some. lia.
Qed.

Lemma zlookup_ext {A} (l k : list A) :
  (∀ i, zlookup l i = zlookup k i) → l = k.
Proof.
  intros H. apply list_eq. intros n. specialize (H (Z.of_nat n)).
  unfold zlookup in H. rewrite !decide_True, Nat2Z.id in H by lia. done.
Qed.

Lemma wrap64_in_range (z : Z) : in_int64 z → wrap64 z = z.
Proof.
  unfold in_int64, wrap64, int64_min, int64_max. intros Hz.
  rewrite Z.mod_small by lia. lia.
Qed.

Lemma add_ssize_in_range (a b : Z) : in_int64 (a + b) → add_ssize a b = a + b.
Proof.
  intros Hab. unfold add_ssize. case_decide; [|done]. by apply wrap64_in_range.
Qed.

(** Two operands of opposite signs do not overflow. *)
Lemma add_ssize_opposite (a b : Z) :
  a ≤ 0 ≤ b ∨ b ≤ 0 ≤ a → add_ssize a b = a + b.
Proof.
  intros Hab. unfold add_ssize. case_decide as Ht; [|done].
  apply wrap64_in_range. unfold in_int64 in *. lia.
Qed.

Lemma zlookup_insert {A} (l : list A) (id i : Z) (x : A) :
  0 ≤ id < zlen l →
  zlookup (<[Z.to_nat id := x]> l) i
  = if decide (i = id) then Some x else zlookup l i.
Proof.
  intros Hid. unfold zlen in Hid. unfold zlookup.
  destruct (decide (i = id)) as [->|Hne].
  - rewrite decide_True by lia. by rewrite list_lookup_insert_eq by lia.
  - case_decide; [|done]. by rewrite list_lookup_insert_ne by lia.
Qed.

Lemma zlookup_take_drop {A} (l : list A) (a n j : Z) :
  0 ≤ a → 0 ≤ n →
  zlookup (take (Z.to_nat n) (drop (Z.to_nat a) l)) j
  = if decide (0 ≤ j < n) then zlookup l (a + j) else None.
Proof.
  intros Ha Hn. unfold zlookup. destruct (decide (0 ≤ j)).
  - case_decide.
    + rewrite decide_True by lia. rewrite lookup_take_lt by lia.
      rewrite lookup_drop. f_equal. lia.
    + apply lookup_take_ge. lia.
  - by rewrite decide_False by lia.
Qed.

Module ThreadSafeVectorFacts.
Import ThreadSafeVector.
Section Generic.
Context {Elem Args : Type}.
Variable construct : Args → outcome Elem.

Lemma emplace_loop_grows size args s s' :
  emplace_loop construct size args s = Returns s' →
  ∃ l, vec_ s' = vec_ s ++ l ∧ size_ s' = size_ s + zlen l
       ∧ Forall (λ e, construct args = Returns e) l
       ∧ zlen l = Z.max 0 (size - zlen (vec_ s)).
Proof.
  funelim (emplace_loop construct size args s); try discriminate.
  - intros [= <-]. exists []. rewrite app_nil_r. unfold zlen at 1 2. cbn.
    split_and!; [done|lia|constructor|lia].
  - intros Hs'. destruct (H _ Hs') as (l & Hv & Hn & Hall & Hlen).
    cbn in Hv, Hn, Hlen. rewrite zlen_app, zlen_cons in Hlen.
    unfold zlen at 2 in Hlen. cbn in Hlen.
    exists (e :: l). rewrite Hv, Hn, <- app_assoc, zlen_cons. cbn.
    split_and!; [done|lia|by constructor|unfold zlen in *; cbn in *; lia].
Qed.

Lemma emplace_loop_returns size args s e :
  construct args = Returns e →
  emplace_loop construct size args s
  = Returns (mk (size_ s + Z.max 0 (size - zlen (vec_ s)))
               (vec_ s ++ replicate (Z.to_nat (size - zlen (vec_ s))) e)).
Proof.
  intros He. funelim (emplace_loop construct size args s);
    try congruence.
  - destruct s as [m v]. cbn in *.
    replace (Z.to_nat (size0 - zlen v)) with 0%nat by lia.
    cbn. rewrite app_nil_r. do 2 f_equal. lia.
  - assert (e0 = e) as -> by congruence.
    rewrite (H e) by done. cbn. rewrite zlen_app, zlen_cons.
    unfold zlen at 2. cbn.
    f_equal. f_equal; [lia|].
    replace (Z.to_nat (size0 - zlen (vec_ s)))
      with (S (Z.to_nat (size0 - (zlen (vec_ s) + (1 + 0))))) by lia.
    cbn. by rewrite <- app_assoc.
Qed.

(** What [emplace_to_at_least] returns on a collection whose counter is
    right. *)
Lemma emplace_to_at_least_returns s size args e :
  published_ok s → construct args = Returns e →
  emplace_to_at_least construct s size args
  = Returns (mk (Z.max (size_ s) size)
               (vec_ s ++ replicate (Z.to_nat (size - size_ s)) e)).
Proof.
  intros Hok He. unfold emplace_to_at_least. red in Hok. case_decide.
  - replace (Z.to_nat (size - size_ s)) with 0%nat by lia. cbn.
    rewrite app_nil_r. destruct s; cbn in *. do 2 f_equal. lia.
  - rewrite (emplace_loop_returns _ _ _ e) by done. rewrite <- Hok.
    do 2 f_equal. lia.
Qed.

Lemma emplace_to_at_least_grows s size args s' :
  emplace_to_at_least construct s size args = Returns s' →
  ∃ l, vec_ s' = vec_ s ++ l ∧ size_ s' = size_ s + zlen l.
Proof.
  unfold emplace_to_at_least. case_decide.
  - intros [= <-]. exists []. rewrite app_nil_r. unfold zlen. cbn. split; [done|lia].
  - intros (l & ? & ? & _)%emplace_loop_grows. eauto.
Qed.

Lemma step_grows s c s' :
  step construct s c = Returns s' →
  ∃ l, vec_ s' = vec_ s ++ l ∧ size_ s' = size_ s + zlen l.
Proof.
  destruct c as [n args|index|]; cbn.
  - apply emplace_to_at_least_grows.
  - intros (_ & _ & [= <-])%bind_returns. exists []. rewrite app_nil_r.
    unfold zlen. cbn. split; [done|lia].
  - intros [= <-]. exists []. rewrite app_nil_r.
    unfold zlen. cbn. split; [done|lia].
Qed.

Lemma run_grows calls : ∀ s s',
  run construct s calls = Returns s' →
  ∃ l, vec_ s' = vec_ s ++ l ∧ size_ s' = size_ s + zlen l.
Proof.
  induction calls as [|c calls IH]; intros s s'; cbn.
  - intros [= <-]. exists []. rewrite app_nil_r.
    unfold zlen. cbn. split; [done|lia].
  - intros (s1 & (l1 & Hv1 & Hn1)%step_grows & (l2 & Hv2 & Hn2)%IH)%bind_returns.
    exists (l1 ++ l2). rewrite Hv2, Hv1, Hn2, Hn1, zlen_app, <- app_assoc.
    split; [done|lia].
Qed.
End Generic.
End ThreadSafeVectorFacts.

(** ** Growth of the column *)

Lemma upper_div_ceil n d :
  0 < d → ∃ q, upper_div n d = Returns q ∧ (q - 1) * d < n ≤ q * d.
Proof.
  intros Hd. unfold upper_div. rewrite decide_False by lia.
  eexists. split; [done|].
  pose proof (Z.div_mod (- n) d ltac:(lia)).
  pose proof (Z.mod_pos_bound (- n) d Hd). nia.
Qed.


Module ConcurrentVectorImplFacts.
Import ThreadSafeVector ThreadSafeVectorFacts ConcurrentVectorImpl.
Section Impl.
Context {T : Type}.
Variable dflt : T.
Implicit Types c : @ConcurrentVectorImpl.t T.

Lemma new_chunk_returns n :
  0 ≤ n → new_chunk dflt n = Returns (replicate (Z.to_nat n) dflt).
Proof. intros. unfold new_chunk. by rewrite decide_True. Qed.

(** [grow_to_at_least] on a column in use. *)
Lemma grow_to_at_least_returns c n :
  wf c →
  ∃ q, is_ceil_div n (chunk_size_ c) q ∧
    grow_to_at_least dflt c n
    = Returns (with_chunks c
        (ThreadSafeVector.mk (Z.max (num_chunk c) q)
           (vec_ (chunks_ c) ++
            replicate (Z.to_nat (q - num_chunk c))
              (replicate (Z.to_nat (Dim c * chunk_size_ c)) dflt)))).
Proof.
  intros [Hcs Hdim Hpub Hch].
  destruct (upper_div_ceil n (chunk_size_ c) Hcs) as (q & Hq & Hceil).
  exists q. split; [done|]. unfold grow_to_at_least. rewrite Hq. cbn.
  erewrite emplace_to_at_least_returns; [done|done|].
  apply new_chunk_returns. nia.
Qed.

Lemma wf_grow c q :
  wf c →
  wf (with_chunks c
        (ThreadSafeVector.mk (Z.max (num_chunk c) q)
           (vec_ (chunks_ c) ++
            replicate (Z.to_nat (q - num_chunk c))
              (replicate (Z.to_nat (Dim c * chunk_size_ c)) dflt)))).
Proof.
  intros [Hcs Hdim Hpub Hch]. red in Hpub. unfold num_chunk, size.
  split; cbn; [done|done| |].
  - red. cbn. rewrite zlen_app, zlen_replicate. lia.
  - apply Forall_app. split; [done|]. apply Forall_replicate.
    rewrite zlen_replicate. nia.
Qed.

(** *** Copies *)

Lemma copy_n_returns (source : list T) from n dst to :
  0 ≤ n → 0 ≤ from → from + n ≤ zlen source → 0 ≤ to → to + n ≤ zlen dst →
  ∃ dst', copy_n source from n dst to = Returns dst' ∧ zlen dst' = zlen dst ∧
    ∀ i, zlookup dst' i
         = if decide (to ≤ i < to + n) then zlookup source (from + (i - to))
           else zlookup dst i.
Proof.
  intros Hn Hfrom Hsrc Hto Hdst. unfold copy_n. case_decide.
  { exists dst. split_and!; [done..|]. intros i. by rewrite decide_False by lia. }
  rewrite decide_True by done. eexists. split; [done|].
  unfold zlen in *. rewrite length_inserts. split; [done|].
  intros i. unfold zlookup.
  set (k := take (Z.to_nat n) (drop (Z.to_nat from) source)).
  assert (length k = Z.to_nat n) as Hk.
  { unfold k. rewrite length_take, length_drop. lia. }
  destruct (decide (0 ≤ i)); [|by rewrite decide_False by lia].
  case_decide.
  - rewrite decide_True by lia.
    rewrite list_lookup_inserts by lia. unfold k.
    rewrite lookup_take_lt by lia. rewrite lookup_drop. f_equal. lia.
  - destruct (decide (i < to)).
    + by rewrite list_lookup_inserts_lt by lia.
    + by rewrite list_lookup_inserts_ge by lia.
Qed.

Lemma cell_put c id filled ch pos :
  0 ≤ id < zlen (vec_ (chunks_ c)) →
  cell (with_chunks c (put (chunks_ c) id filled)) ch pos
  = if decide (ch = id) then zlookup filled pos else cell c ch pos.
Proof.
  intros Hid. unfold cell, put, with_chunks.
  cbn [chunks_ vec_]. rewrite zlookup_insert by done.
  by case_decide.
Qed.

Lemma wf_put c id filled :
  wf c → zlen filled = Dim c * chunk_size_ c →
  wf (with_chunks c (put (chunks_ c) id filled)).
Proof.
  intros [Hcs Hdim Hpub Hch] Hlen. split; cbn; [done..| |].
  - red in Hpub |- *. cbn. unfold zlen in *. by rewrite length_insert.
  - by apply Forall_insert.
Qed.

(** One call of [fill_chunk] inside an allocated chunk. *)
Lemma fill_chunk_returns c chunk_id co n source so :
  wf c → 0 ≤ chunk_id < num_chunk c → 0 ≤ co → 0 < n →
  co + n ≤ chunk_size_ c → 0 ≤ so → (so + n) * Dim c ≤ zlen source →
  ∃ c', fill_chunk c chunk_id co n source so = Returns c'
    ∧ wf c' ∧ same_shape c c'
    ∧ ∀ ch pos, cell c' ch pos =
        if decide (ch = chunk_id ∧ co * Dim c ≤ pos < (co + n) * Dim c)
        then zlookup source (so * Dim c + (pos - co * Dim c))
        else cell c ch pos.
Proof.
  intros Hwf Hid Hco Hn Hfit Hso Hsrc.
  pose proof Hwf as [Hcs Hdim Hpub Hch]. red in Hpub.
  unfold num_chunk, size in Hid.
  unfold fill_chunk. rewrite decide_False by lia.
  unfold size. rewrite decide_True by lia.
  unfold get. rewrite decide_True by lia.
  destruct (zlookup_Some (vec_ (chunks_ c)) chunk_id) as [chunk Hchunk]; [lia|].
  rewrite Hchunk. cbn.
  assert (zlen chunk = Dim c * chunk_size_ c) as Hlen.
  { unfold zlookup in Hchunk. rewrite decide_True in Hchunk by lia.
    eapply Forall_lookup_1 in Hch; [|done]. done. }
  destruct (copy_n_returns source (so * Dim c) (n * Dim c) chunk (co * Dim c))
    as (filled & -> & Hfl & Hfilled); [nia..|].
  cbn. eexists. split; [done|]. split; [apply wf_put; [done|lia]|].
  split; [done|]. intros ch pos. rewrite cell_put by lia.
  destruct (decide (ch = chunk_id)) as [->|].
  - rewrite Hfilled. unfold cell. rewrite Hchunk. cbn.
    destruct (decide (co * Dim c ≤ pos < co * Dim c + n * Dim c)).
    + by rewrite decide_True by (split; [done|lia]).
    + by rewrite decide_False by lia.
  - by rewrite decide_False by tauto.
Qed.

(** *** What [set_data] has written after each of its steps *)

Lemma same_shape_refl c : same_shape c c.
Proof. by repeat split. Qed.

Lemma same_shape_trans c1 c2 c3 :
  same_shape c1 c2 → same_shape c2 c3 → same_shape c1 c3.
Proof. unfold same_shape. intros (?&?&?&?) (?&?&?&?). split_and!; congruence. Qed.

Lemma written_start c source off : wf c → written c c source off 0.
Proof.
  intros Hwf. split; [done|apply same_shape_refl| |].
  - intros ch r j ? ? ?. lia.
  - by intros ch r j ? ? ?.
Qed.

(** An element of a chunk lies in a range of elements of that chunk
    when its components lie in the range of their positions. *)
Lemma position_in_range dim co n r j :
  0 ≤ j < dim →
  (co * dim ≤ r * dim + j < (co + n) * dim) ↔ co ≤ r < co + n.
Proof. intros. nia. Qed.

Lemma fill_chunk_written c0 c source off done chunk_id co n :
  written c0 c source off done →
  0 ≤ done → 0 ≤ co → 0 < n → co + n ≤ chunk_size_ c →
  chunk_id * chunk_size_ c + co = off + done →
  0 ≤ chunk_id < num_chunk c →
  (done + n) * Dim c ≤ zlen source →
  ∃ c', fill_chunk c chunk_id co n source done = Returns c'
    ∧ written c0 c' source off (done + n).
Proof.
  intros [Hwf Hshape Hst Hkept] Hdone Hco Hn Hfit Hat Hid Hsrc.
  destruct (fill_chunk_returns c chunk_id co n source done)
    as (c' & Hfill & Hwf' & Hshape' & Hcell); [done..|].
  exists c'. split; [done|].
  pose proof Hshape' as (_ & Hcs & Hdim & _).
  split; [done|by eapply same_shape_trans| |].
  - intros ch r j Hr Hj He. rewrite Hcs, Hdim in *. rewrite Hcell.
    destruct (decide (off + done ≤ ch * chunk_size_ c + r)) as [Hnew|Hold].
    + assert (ch = chunk_id) as -> by nia.
      rewrite decide_True
        by (split; [done|apply position_in_range; [done|lia]]).
      f_equal. nia.
    + rewrite decide_False; [apply Hst; [done..|lia]|].
      intros [-> Hpos]. apply position_in_range in Hpos; [lia|done].
  - intros ch r j Hr Hj He. rewrite Hcs, Hdim in *. rewrite Hcell.
    rewrite decide_False; [apply Hkept; [done..|lia]|].
    intros [-> Hpos]. apply position_in_range in Hpos; [lia|done].
Qed.

(** The middle loop: whole chunks, as long as a whole chunk remains. *)
Lemma middle_written c0 source off total k :
  written c0 (cur_col k) source off (cur_source_offset k) →
  0 ≤ cur_source_offset k → 0 ≤ cur_element_count k →
  0 ≤ cur_chunk_id k →
  cur_chunk_id k * chunk_size_ c0 = off + cur_source_offset k →
  cur_source_offset k + cur_element_count k = total →
  total * Dim c0 ≤ zlen source →
  off + total ≤ num_chunk c0 * chunk_size_ c0 →
  ∃ k', middle source k = Returns k'
    ∧ written c0 (cur_col k') source off (cur_source_offset k')
    ∧ 0 ≤ cur_source_offset k'
    ∧ 0 ≤ cur_element_count k' < chunk_size_ c0
    ∧ 0 ≤ cur_chunk_id k'
    ∧ cur_chunk_id k' * chunk_size_ c0 = off + cur_source_offset k'
    ∧ cur_source_offset k' + cur_element_count k' = total.
Proof.
  funelim (middle source k); intros Hw Hso Hcnt Hid Hat Htot Hsrc Hcap;
    pose proof Hw as [Hwf (_ & Hcs & Hdim & Hnum) _ _];
    pose proof Hwf as [Hcs0 Hdim0 _ _];
    try (destruct (fill_chunk_written c0 (cur_col k) source off
                (cur_source_offset k) (cur_chunk_id k) 0 (chunk_size_ (cur_col k)))
      as (c'' & Hfill & Hw');
      [done|lia|lia|lia|lia|rewrite Hcs; lia|rewrite Hnum, Hcs in *; nia
      |rewrite Hcs, Hdim in *; nia|]).
  - exists k. split_and!; [done|done|done|lia|lia|done|done|done].
  - lia.
  - assert (c'' = c') as -> by congruence.
    apply H; cbn; [exact Hw'|lia|lia|lia|nia|lia|done|done].
  - congruence.
  - congruence.
Qed.

(** [set_data] on a column in use: the column grows to hold the range,
    then the range holds the source and nothing else has changed. *)
Lemma set_data_written c off source cnt :
  wf c → 0 ≤ off → 0 < cnt → off + cnt ≤ int64_max →
  cnt * Dim c ≤ zlen source →
  ∃ c1 c', grow_to_at_least dflt c (off + cnt) = Returns c1
    ∧ set_data dflt c off source cnt = Returns c'
    ∧ written c1 c' source off cnt
    ∧ off + cnt ≤ num_chunk c1 * chunk_size_ c1.
Proof.
  intros Hwf Hoff Hcnt Hmax Hsrc.
  destruct (grow_to_at_least_returns c (off + cnt) Hwf) as (q & Hceil & Hgrow).
  pose proof (wf_grow c q Hwf) as Hwf1.
  unfold set_data. rewrite decide_False by lia.
  rewrite add_ssize_in_range by (unfold in_int64, int64_min; lia).
  rewrite Hgrow.
  match type of Hgrow with _ = Returns ?x => set (c1 := x) in * end.
  assert (chunk_size_ c1 = chunk_size_ c) as Hcs by done.
  assert (Dim c1 = Dim c) as Hdim by done.
  assert (num_chunk c1 = Z.max (num_chunk c) q) as Hnum by done.
  pose proof Hwf as [Hcs0 Hdim0 _ _]. red in Hceil.
  assert (off + cnt ≤ num_chunk c1 * chunk_size_ c1) as Hcap by (rewrite Hnum, Hcs; nia).
  clearbody c1. exists c1. cbn. rewrite decide_False by lia.
  pose proof (Z.quot_rem' off (chunk_size_ c1)) as Hqr.
  pose proof (Z.rem_bound_pos off (chunk_size_ c1) Hoff ltac:(lia)) as Hrem.
  pose proof (Z.quot_pos off (chunk_size_ c1) Hoff ltac:(lia)) as Hquot.
  set (chunk_id := off `quot` chunk_size_ c1) in *.
  set (co := off `rem` chunk_size_ c1) in *.
  pose proof (written_start c1 source off Hwf1) as Hw0.
  case_decide as Hone.
  - destruct (fill_chunk_written c1 c1 source off 0 chunk_id co cnt)
      as (c' & Hfill & Hw); [done|lia|lia|lia|lia|lia|nia|nia|].
    exists c'. by rewrite Z.add_0_l in Hw.
  - destruct (fill_chunk_written c1 c1 source off 0 chunk_id co
                (chunk_size_ c1 - co))
      as (c2 & -> & Hw2); [done|lia|lia|lia|lia|lia|nia|nia|].
    cbn. pose proof Hw2 as [_ (_ & Hcs2 & Hdim2 & Hnum2) _ _].
    destruct (middle_written c1 source off cnt
                (Cursor c2 (chunk_id + 1) (0 + (chunk_size_ c2 - co))
                   (cnt - (chunk_size_ c1 - co))))
      as (k & -> & Hwk & Hso & Hleft & Hid & Hat & Htot);
      cbn; rewrite ?Hcs2; [by rewrite Z.add_0_l in *|lia|lia|lia|lia|lia|nia|done|].
    cbn. pose proof Hwk as [_ (_ & Hcsk & Hdimk & Hnumk) _ _].
    case_decide.
    + destruct (fill_chunk_written c1 (cur_col k) source off
                  (cur_source_offset k) (cur_chunk_id k) 0 (cur_element_count k))
        as (c' & Hfill & Hw);
        [done|lia|lia|lia|lia|rewrite Hcsk; lia|rewrite Hnumk; nia
        |rewrite Hdimk; nia|].
      exists c'. rewrite Htot in Hw. done.
    + exists (cur_col k). replace cnt with (cur_source_offset k) by lia.
      split_and!; [done|done|done|lia].
Qed.

(** *** Reading *)

Lemma element_chunk c e :
  wf c → 0 ≤ e < num_chunk c * chunk_size_ c →
  0 ≤ e `quot` chunk_size_ c < num_chunk c
  ∧ 0 ≤ e `rem` chunk_size_ c < chunk_size_ c
  ∧ e = e `quot` chunk_size_ c * chunk_size_ c + e `rem` chunk_size_ c.
Proof.
  intros [Hcs _ _ _] He.
  pose proof (Z.quot_rem' e (chunk_size_ c)).
  pose proof (Z.rem_bound_pos e (chunk_size_ c) ltac:(lia) ltac:(lia)).
  pose proof (Z.quot_pos e (chunk_size_ c) ltac:(lia) ltac:(lia)).
  split_and!; [lia|nia|lia|lia|lia].
Qed.

Lemma get_chunk_returns c i :
  wf c → 0 ≤ i < num_chunk c →
  ∃ chunk, get_chunk c i = Returns chunk
    ∧ zlookup (vec_ (chunks_ c)) i = Some chunk
    ∧ zlen chunk = Dim c * chunk_size_ c.
Proof.
  intros [Hcs Hdim Hpub Hch] Hi. red in Hpub. unfold num_chunk, size in Hi.
  destruct (zlookup_Some (vec_ (chunks_ c)) i) as [chunk Hchunk]; [lia|].
  exists chunk. unfold get_chunk, get. rewrite decide_True by lia.
  rewrite Hchunk. split_and!; [done..|].
  unfold zlookup in Hchunk. rewrite decide_True in Hchunk by lia.
  by eapply Forall_lookup_1 in Hch.
Qed.

Lemma get_element_returns c e :
  wf c → 0 ≤ e < num_chunk c * chunk_size_ c →
  get_element c e
  = Returns (Ptr (e `quot` chunk_size_ c) (e `rem` chunk_size_ c * Dim c)).
Proof.
  intros Hwf He. destruct (element_chunk c e Hwf He) as (Hq & Hr & _).
  destruct (get_chunk_returns c _ Hwf Hq) as (chunk & Hget & _).
  unfold get_element. rewrite decide_False by lia. by rewrite Hget.
Qed.

Lemma load_element c e :
  wf c → 0 ≤ e < num_chunk c * chunk_size_ c →
  ∃ l, load c (Ptr (e `quot` chunk_size_ c) (e `rem` chunk_size_ c * Dim c)) (Dim c)
       = Returns l
    ∧ ∀ j, zlookup l j
           = if decide (0 ≤ j < Dim c)
             then cell c (e `quot` chunk_size_ c) (e `rem` chunk_size_ c * Dim c + j)
             else None.
Proof.
  intros Hwf He. destruct (element_chunk c e Hwf He) as (Hq & Hr & _).
  destruct (get_chunk_returns c _ Hwf Hq) as (chunk & _ & Hchunk & Hlen).
  pose proof Hwf as [_ Hdim _ _].
  unfold load. cbn. rewrite Hchunk. rewrite decide_True by nia.
  eexists. split; [done|]. intros j.
  rewrite zlookup_take_drop by nia. unfold cell. by rewrite Hchunk.
Qed.

(** *** Every call leaves a later state of the same column *)

Lemma extends_refl c : extends c c.
Proof. split_and!; [done|done|done|lia|done|eauto]. Qed.

Lemma extends_trans c1 c2 c3 : extends c1 c2 → extends c2 c3 → extends c1 c3.
Proof.
  intros (?&?&?&?&Hp12&H12) (?&?&?&?&Hp23&H23).
  split_and!; [congruence|congruence|congruence|lia|auto|].
  intros i chunk (chunk2 & Hc2 & Hl2)%H12.
  destruct (H23 _ _ Hc2) as (chunk3 & Hc3 & Hl3). exists chunk3.
  split; [done|congruence].
Qed.

Lemma grow_to_at_least_extends c n c' :
  grow_to_at_least dflt c n = Returns c' → extends c c'.
Proof.
  unfold grow_to_at_least.
  intros (q & _ & (s' & Hs' & [= <-])%bind_returns)%bind_returns.
  apply emplace_to_at_least_grows in Hs' as (l & Hv & Hn).
  pose proof (zlen_nonneg l).
  unfold extends, num_chunk, size, published_ok. cbn.
  split_and!; [done|done|done|lia| |].
  - intros Hp. rewrite Hv, zlen_app. lia.
  - intros i chunk Hi. exists chunk. rewrite Hv.
    split; [by apply lookup_app_l_Some|done].
Qed.

Lemma copy_n_length (source : list T) from n dst to dst' :
  copy_n source from n dst to = Returns dst' → length dst' = length dst.
Proof.
  unfold copy_n. repeat case_decide; intros [= <-]; [done|].
  apply length_inserts.
Qed.

Lemma fill_chunk_extends c chunk_id co n source so c' :
  fill_chunk c chunk_id co n source so = Returns c' →
  extends c c' ∧ num_chunk c' = num_chunk c.
Proof.
  unfold fill_chunk. case_decide.
  { intros [= <-]. split; [apply extends_refl|done]. }
  case_decide; [|done].
  intros (chunk & Hget & (filled & Hcopy & [= <-])%bind_returns)%bind_returns.
  apply copy_n_length in Hcopy.
  unfold get in Hget. case_decide; [|done].
  destruct (zlookup _ _) as [chunk0|] eqn:Hlook; [|done].
  injection Hget as ->. unfold zlookup in Hlook. case_decide; [|done].
  split; [|done]. unfold extends, num_chunk, size, published_ok. cbn.
  split_and!; [done|done|done|lia| |].
  - unfold zlen. by rewrite length_insert.
  - intros i chunk' Hi. rewrite list_lookup_insert.
    apply lookup_lt_Some in Hlook as Hlt.
    case_decide as Heq; [|eauto]. destruct Heq as [<- _].
    pose proof (eq_trans (eq_sym Hi) Hlook) as [= ->]. by exists filled.
Qed.

Lemma middle_extends (source : list T) (k k' : @cursor T) :
  middle source k = Returns k' →
  extends (cur_col k) (cur_col k')
  ∧ num_chunk (cur_col k') = num_chunk (cur_col k).
Proof.
  funelim (middle source k); try discriminate.
  - intros [= <-]. split; [apply extends_refl|done].
  - intros [Hext Hnum]%H. cbn in *.
    match goal with Hf : fill_chunk _ _ _ _ _ _ = Returns _ |- _ =>
      apply fill_chunk_extends in Hf as [Hext1 Hnum1] end.
    split; [by eapply extends_trans|congruence].
Qed.

(** [set_data] is a growth, then writes into the chunks there are. *)
Lemma set_data_steps c off source cnt c' :
  set_data dflt c off source cnt = Returns c' →
  (cnt = 0 ∧ c' = c)
  ∨ ∃ c1, grow_to_at_least dflt c (add_ssize off cnt) = Returns c1
          ∧ extends c1 c' ∧ num_chunk c' = num_chunk c1.
Proof.
  unfold set_data. case_decide.
  { intros [= <-]. by left. }
  intros (c1 & Hgrow & Hrest)%bind_returns.
  right. exists c1. split; [done|]. clear Hgrow.
  case_decide; [done|]. case_decide.
  { by apply fill_chunk_extends in Hrest. }
  apply bind_returns in Hrest as (c2 & [Hfirst Hn2]%fill_chunk_extends & Hrest).
  apply bind_returns in Hrest as (k & [Hk Hnk]%middle_extends & Hrest).
  cbn in Hk, Hnk.
  assert (extends c1 (cur_col k)) as Hmid by by eapply extends_trans.
  case_decide.
  - apply fill_chunk_extends in Hrest as [Hlast Hnl].
    split; [by eapply extends_trans|congruence].
  - injection Hrest as <-. split; [done|congruence].
Qed.

Lemma set_data_extends c off source cnt c' :
  set_data dflt c off source cnt = Returns c' → extends c c'.
Proof.
  intros [[_ ->]|(c1 & Hgrow%grow_to_at_least_extends & Hext & _)]%set_data_steps.
  - apply extends_refl.
  - by eapply extends_trans.
Qed.

(** *** The columns in use stay in use *)

Lemma wf_extends c c' :
  extends c c' → num_chunk c' = num_chunk c → wf c → wf c'.
Proof.
  intros (_ & Hcs & Hdim & _ & Hp & Hkeep) Hnum [Hcs0 Hdim0 Hpub Hch].
  split; [by rewrite Hcs|by rewrite Hdim|by apply Hp|].
  specialize (Hp Hpub). red in Hp, Hpub. unfold num_chunk, size in Hnum.
  apply Forall_lookup. intros i chunk' Hi.
  destruct (lookup_lt_is_Some_2 (vec_ (chunks_ c)) i) as [chunk Hchunk].
  { apply lookup_lt_Some in Hi. unfold zlen in *. lia. }
  destruct (Hkeep _ _ Hchunk) as (chunk2 & Hi2 & Hlen).
  pose proof (eq_trans (eq_sym Hi) Hi2) as [= ->].
  eapply Forall_lookup_1 in Hch; [|done]. cbn in Hch.
  unfold zlen in *. rewrite Hcs, Hdim. lia.
Qed.






Lemma step_extends c op c' : step dflt c op = Returns c' → extends c c'.
Proof.
  destruct op; cbn.
  - apply grow_to_at_least_extends.
  - apply set_data_extends.
  - apply set_data_extends.
  - intros (_ & _ & [= <-])%bind_returns. apply extends_refl.
  - intros (_ & _ & [= <-])%bind_returns. apply extends_refl.
  - intros (_ & _ & [= <-])%bind_returns. apply extends_refl.
  - intros [= <-]. apply extends_refl.
  - intros [= <-]. apply extends_refl.
Qed.

Lemma run_extends ops : ∀ c c', run dflt c ops = Returns c' → extends c c'.
Proof.
  induction ops as [|op ops IH]; intros c c'; cbn.
  - intros [= <-]. apply extends_refl.
  - intros (c1 & H1%step_extends & H2%IH)%bind_returns.
    by eapply extends_trans.
Qed.
End Impl.
End ConcurrentVectorImplFacts.

(** * The claims of the specification *)

Import ThreadSafeVector ThreadSafeVectorFacts.
Import ConcurrentVectorImpl ConcurrentVectorImplFacts.







(** C3. On a fresh scalar column of chunk capacity 4,
    [set_data(2, [1,2,3,4,5,6], 6)] leaves chunk 0 as [d, d, 1, 2] and
    chunk 1 as [3, 4, 5, 6], [d] the value of a value-initialised slot,
    and [num_chunk()] is 2. *)
Theorem set_data_boundary_example (d : Z) :
  ∃ c', (c ← ConcurrentVector.scalar 4; set_data d c 2 [1; 2; 3; 4; 5; 6] 6)
        = Returns c'
    ∧ get_chunk c' 0 = Returns [d; d; 1; 2]
    ∧ get_chunk c' 1 = Returns [3; 4; 5; 6]
    ∧ vec_ (chunks_ c') = [[d; d; 1; 2]; [3; 4; 5; 6]]
    ∧ num_chunk c' = 2
    ∧ Dim c' = 1 ∧ chunk_size_ c' = 4.
Proof. eexists. split; [by vm_compute|]. by vm_compute. Qed.

(** C4. Growth is idempotent and monotone: after [grow_to_at_least(n)],
    a call [grow_to_at_least(m)] with [m ≤ n] returns and leaves
    [num_chunk()] as it was; and no sequence of calls, from any state,
    ends with fewer chunks than it started with. *)
Theorem grow_to_at_least_idempotent_monotone {T : Type} (dflt : T)
    (c : @ConcurrentVectorImpl.t T) (n m : Z) :
  wf c → m ≤ n →
  (∃ c1 c2, grow_to_at_least dflt c n = Returns c1
     ∧ grow_to_at_least dflt c1 m = Returns c2
     ∧ num_chunk c2 = num_chunk c1 ∧ c2 = c1)
  ∧ (∀ (c0 : @ConcurrentVectorImpl.t T) ops c',
       run dflt c0 ops = Returns c' → num_chunk c0 ≤ num_chunk c').
Proof.
  intros Hwf Hmn. split.
  - destruct (grow_to_at_least_returns dflt c n Hwf) as (q & Hq & Hgrow).
    pose proof (wf_grow dflt c q Hwf) as Hwf1.
    match type of Hgrow with _ = Returns ?x => set (c1 := x) in * end.
    destruct (grow_to_at_least_returns dflt c1 m Hwf1) as (q' & Hq' & Hgrow').
    exists c1. eexists. split; [done|]. split; [done|].
    assert (q' ≤ num_chunk c1) as Hle.
    { pose proof Hwf as [Hcs _ _ _]. unfold is_ceil_div in *.
      change (chunk_size_ c1) with (chunk_size_ c) in Hq'.
      change (num_chunk c1) with (Z.max (num_chunk c) q). nia. }
    replace (Z.to_nat (q' - num_chunk c1)) with 0%nat by lia.
    cbn [replicate]. rewrite app_nil_r, Z.max_l by lia.
    split; [done|]. by destruct c1 as [? ? ? []].
  - intros c0 ops c' (_ & _ & _ & Hle & _)%run_extends. done.
Qed.

Lemma grow_to_at_least_idempotent_monotone_witness :
  (∃ c1 c2, grow_to_at_least 0 Examples.pairs 7 = Returns c1
     ∧ grow_to_at_least 0 c1 3 = Returns c2
     ∧ num_chunk c2 = num_chunk c1 ∧ c2 = c1)
  ∧ (∀ (c0 : @ConcurrentVectorImpl.t Z) ops c',
       run 0 c0 ops = Returns c' → num_chunk c0 ≤ num_chunk c').
Proof.
  apply (grow_to_at_least_idempotent_monotone 0 Examples.pairs 7 3).
  - split; cbn; [lia|lia|reflexivity|constructor].
  - lia.
Defined.

(** C5, as the code has it. The construction of a packed binary column of
    bit width [b] stops at a failed assertion if and only if [b % 8 != 0]
    or [b / 8 == 1]: the base is a vector layout, which refuses the
    dimension 1.  Otherwise it returns, with the byte dimension [b / 8]
    and the bit width kept.  Bit width 16 with chunk capacity 100 gives
    the byte dimension 2, and [grow_to_at_least(250)] then gives 3 chunks;
    bit width 15 stops at construction. *)
Theorem binary_vector_construction {T : Type} (dflt : T) (b chunk_size : Z) :
  match ConcurrentVector.binary_vector (T:=T) b chunk_size with
  | Returns v =>
      b `rem` 8 = 0 ∧ b `quot` 8 ≠ 1
      ∧ Dim (ConcurrentVector.binary_base v) = b `quot` 8
      ∧ b = 8 * Dim (ConcurrentVector.binary_base v)
      ∧ ConcurrentVector.binary_dim_ v = b
      ∧ chunk_size_ (ConcurrentVector.binary_base v) = chunk_size
      ∧ num_chunk (ConcurrentVector.binary_base v) = 0
  | Fatal => b `rem` 8 ≠ 0 ∨ b `quot` 8 = 1
  | Undefined => False
  end
  ∧ (∃ v c', ConcurrentVector.binary_vector 16 100 = Returns v
       ∧ Dim (ConcurrentVector.binary_base v) = 2
       ∧ grow_to_at_least dflt (ConcurrentVector.binary_base v) 250 = Returns c'
       ∧ num_chunk c' = 3)
  ∧ ConcurrentVector.binary_vector (T:=T) 15 100 = Fatal.
Proof.
  split; [|split; [|done]].
  - unfold ConcurrentVector.binary_vector, create. cbn.
    pose proof (Z.quot_rem' b 8).
    case_bool_decide; cbn; [case_decide|]; cbn; [|tauto..].
    split_and!; first [done|lia].
  - destruct (grow_to_at_least_returns dflt
                (ConcurrentVectorImpl.mk false 100 2 empty) 250)
      as (q & Hq & Hgrow).
    { split; cbn; [lia|lia|reflexivity|constructor]. }
    unfold is_ceil_div in Hq. cbn in Hq. assert (q = 3) as -> by lia.
    eexists _, _. split; [done|]. split; [done|]. split; [exact Hgrow|done].
Qed.

(** C5 as stated fails at the bit width 8, which 8 divides: the
    construction stops at the assertion of the base. *)
Lemma binary_vector_eight_bits :
  8 `rem` 8 = 0
  ∧ ConcurrentVector.binary_vector (T:=Z) 8 100 = Fatal.
Proof. split; reflexivity. Qed.




Lemma create_cases {T : Type} (scalar : bool) (dim chunk_size : Z) :
  ((scalar = true → dim = 1) ∧ (scalar = false → dim ≠ 1))
  ∧ create (T:=T) scalar dim chunk_size
    = Returns (ConcurrentVectorImpl.mk scalar chunk_size dim empty)
  ∨ ¬ ((scalar = true → dim = 1) ∧ (scalar = false → dim ≠ 1))
    ∧ create (T:=T) scalar dim chunk_size = Fatal.
Proof.
  unfold create. destruct scalar; case_bool_decide as Hd.
  - left. subst dim. split; [split; [done|discriminate]|done].
  - right. split; [|done]. intros [Hone _]. by apply Hd, Hone.
  - left. split; [split; [discriminate|done]|done].
  - right. split; [|done]. intros [_ Hne]. by apply Hne in Hd.
Qed.

(** C7. The construction of a column returns if and only if the dimension
    is 1 for a scalar layout and is not 1 for a vector layout; it stops
    at an assertion otherwise; in a column that was constructed, no
    sequence of calls changes [Dim] or [chunk_size_]. *)
Theorem create_dimension_contract {T : Type} (dflt : T)
    (scalar : bool) (dim chunk_size : Z) :
  let agree := (scalar = true → dim = 1) ∧ (scalar = false → dim ≠ 1) in
  (returned (create (T:=T) scalar dim chunk_size) ↔ agree)
  ∧ (create (T:=T) scalar dim chunk_size = Fatal ↔ ¬ agree)
  ∧ (∀ c, create scalar dim chunk_size = Returns c →
       is_scalar c = scalar ∧ Dim c = dim ∧ chunk_size_ c = chunk_size
       ∧ num_chunk c = 0
       ∧ ∀ ops c', run dflt c ops = Returns c' →
           Dim c' = dim ∧ chunk_size_ c' = chunk_size
           ∧ is_scalar c' = scalar).
Proof.
  cbn. destruct (create_cases (T:=T) scalar dim chunk_size)
    as [[Hagree Hc]|[Hno Hc]]; rewrite Hc.
  - split_and!.
    + split; [done|]. intros _. by eexists.
    + split; [discriminate|done].
    + intros c [= <-]. cbn. split_and!; [done..|].
      intros ops c' (Hs' & Hcs' & Hdim' & _)%run_extends. done.
  - split_and!.
    + split; [|done]. intros [? [=]].
    + done.
    + discriminate.
Qed.

Lemma create_dimension_contract_witness :
  returned (create (T:=Z) true 1 4)
  ∧ create (T:=Z) false 1 4 = Fatal
  ∧ ∀ ops c', run 0 Examples.pairs ops = Returns c' →
      Dim c' = 2 ∧ chunk_size_ c' = 2 ∧ is_scalar c' = false.
Proof.
  split; [|split].
  - apply (create_dimension_contract 0 true 1 4). split; [done|discriminate].
  - apply (create_dimension_contract 0 false 1 4). intros [_ Hne]. by apply Hne.
  - apply (create_dimension_contract 0 false 2 2). reflexivity.
Defined.

(** C8. The scalar accessor [operator[](element_index)] stops at its
    assertion where the dimension is not 1; on a layout of dimension 1 it
    returns the value at offset [element_index % chunk_size] of chunk
    [element_index / chunk_size]. *)
Theorem subscript_scalar_only {T : Type} (c : @ConcurrentVectorImpl.t T)
    (element_index : Z) :
  (Dim c ≠ 1 → subscript c element_index = Fatal)
  ∧ (wf c → Dim c = 1 → 0 ≤ element_index < num_chunk c * chunk_size_ c →
       ∃ chunk v,
         vec_ (chunks_ c) !! Z.to_nat (element_index `quot` chunk_size_ c)
         = Some chunk
         ∧ chunk !! Z.to_nat (element_index `rem` chunk_size_ c) = Some v
         ∧ subscript c element_index = Returns v).
Proof.
  split.
  - intros Hdim. unfold subscript. by rewrite decide_False.
  - intros Hwf Hdim He.
    destruct (element_chunk c _ Hwf He) as (Hq & Hr & _).
    destruct (get_chunk_returns c _ Hwf Hq) as (chunk & Hget & Hchunk & Hlen).
    destruct (zlookup_Some chunk (element_index `rem` chunk_size_ c)) as [v Hv];
      [rewrite Hlen, Hdim; lia|].
    exists chunk, v. unfold subscript, at_index.
    rewrite decide_True, decide_False, Hget by lia. cbn. rewrite Hv.
    unfold zlookup in Hchunk, Hv.
    rewrite decide_True in Hchunk by lia. rewrite decide_True in Hv by lia.
    done.
Qed.

Lemma subscript_scalar_only_witness :
  (Dim Examples.pairs ≠ 1 → subscript Examples.pairs 5 = Fatal)
  ∧ ∃ chunk v,
      vec_ (chunks_ Examples.two_chunks) !! Z.to_nat (5 `quot` 4) = Some chunk
      ∧ chunk !! Z.to_nat (5 `rem` 4) = Some v
      ∧ subscript Examples.two_chunks 5 = Returns v.
Proof.
  split.
  - apply (subscript_scalar_only Examples.pairs 5).
  - apply (subscript_scalar_only Examples.two_chunks 5).
    + split; cbn; [lia|lia|reflexivity|repeat constructor].
    + reflexivity.
    + cbn. lia.
Defined.

(** C9. Between the calls the published counter of the collection is the
    number of elements present, the counter never goes down, and the
    elements present stay, in their order, at the head of the sequence.
    So it is for the chunks of a column under its calls, which write into
    chunks and never replace one by another length. *)
Theorem collection_invariant :
  (∀ (Elem Args : Type) (construct : Args → outcome Elem),
     published_ok (@ThreadSafeVector.empty Elem)
     ∧ ∀ (s : ThreadSafeVector.t Elem) calls s',
         published_ok s →
         ThreadSafeVector.run construct s calls = Returns s' →
         published_ok s' ∧ size s ≤ size s' ∧ vec_ s `prefix_of` vec_ s')
  ∧ (∀ (T : Type) (dflt : T) (c : @ConcurrentVectorImpl.t T) ops c',
       published_ok (chunks_ c) →
       run dflt c ops = Returns c' →
       published_ok (chunks_ c') ∧ num_chunk c ≤ num_chunk c'
       ∧ ∀ (i : nat) chunk, vec_ (chunks_ c) !! i = Some chunk →
           ∃ chunk', vec_ (chunks_ c') !! i = Some chunk'
                     ∧ length chunk' = length chunk).
Proof.
  split.
  - intros Elem Args construct. split; [reflexivity|].
    intros s calls s' Hpub (l & Hv & Hn)%run_grows. red in Hpub.
    pose proof (zlen_nonneg l). unfold published_ok, size.
    split_and!; [rewrite Hv, zlen_app; lia|lia|by exists l].
  - intros T dflt c ops c' Hpub (_ & _ & _ & Hle & Hp & Hkeep)%run_extends.
    auto.
Qed.

Lemma collection_invariant_witness :
  published_ok (chunks_ Examples.two_chunks)
  ∧ size (@ThreadSafeVector.empty (list Z)) ≤ size (chunks_ Examples.two_chunks)
  ∧ vec_ (@ThreadSafeVector.empty (list Z))
    `prefix_of` vec_ (chunks_ Examples.two_chunks).
Proof.
  apply (proj2 (proj1 collection_invariant (list Z) Z (new_chunk 0))
           ThreadSafeVector.empty [Emplace 2 4; Get 1; Size]
           (chunks_ Examples.two_chunks)).
  - reflexivity.
  - reflexivity.
Defined.

(** C10. A negative index passes the assertion of [operator[]] of the
    collection, which compares it with the published count only, and the
    access is outside the collection; [get_chunk] adds no check.
    [get_element] and the scalar accessor divide a negative element
    index as any other: at or under [- chunk_size_] the chunk index is
    negative; above it the chunk index is 0 and the offset negative, so
    that [get_element] returns a pointer before the first component of
    chunk 0 and the scalar accessor reads outside the chunk. *)
Theorem negative_index_unchecked {T : Type} (c : @ConcurrentVectorImpl.t T)
    (index element_index : Z) :
  wf c → index < 0 → element_index < 0 →
  get (chunks_ c) index ≠ Fatal
  ∧ get (chunks_ c) index = Undefined
  ∧ get_chunk c index = Undefined
  ∧ (element_index ≤ - chunk_size_ c →
       element_index `quot` chunk_size_ c < 0
       ∧ get_element c element_index = Undefined
       ∧ (Dim c = 1 → subscript c element_index = Undefined))
  ∧ (- chunk_size_ c < element_index → 0 < num_chunk c →
       get_element c element_index = Returns (Ptr 0 (element_index * Dim c))
       ∧ (0 < Dim c →
            load c (Ptr 0 (element_index * Dim c)) (Dim c) = Undefined)
       ∧ (Dim c = 1 → subscript c element_index = Undefined)).
Proof.
  intros Hwf Hi He. pose proof Hwf as [Hcs Hdim Hpub Hch]. red in Hpub.
  pose proof (zlen_nonneg (vec_ (chunks_ c))).
  assert (∀ i, i < 0 → get (chunks_ c) i = Undefined) as Hneg.
  { intros i Hlt. unfold get. rewrite decide_True by lia.
    by rewrite zlookup_None by lia. }
  rewrite (Hneg _ Hi). unfold get_chunk. rewrite (Hneg _ Hi).
  split_and!; [done..| |].
  - intros Hle.
    assert (element_index `quot` chunk_size_ c < 0) as Hq.
    { pose proof (Z.quot_rem' element_index (chunk_size_ c)).
      pose proof (Z.rem_bound_pos_neg element_index (chunk_size_ c)
                    ltac:(lia) ltac:(lia)).
      apply Z.nle_gt. intros Hq0.
      assert (0 ≤ chunk_size_ c * element_index `quot` chunk_size_ c)
        by (apply Z.mul_nonneg_nonneg; lia).
      lia. }
    unfold get_element, subscript, get_chunk.
    rewrite (decide_False (P:=chunk_size_ c = 0)), (Hneg _ Hq) by lia.
    split_and!; [done..|]. intros Hone.
    by rewrite (decide_True _ _ Hone), decide_False by lia.
  - intros Hgt Hnum.
    assert (element_index `quot` chunk_size_ c = 0) as Hq
      by (apply Z.quot_small_iff; lia).
    assert (element_index `rem` chunk_size_ c = element_index) as Hr.
    { pose proof (Z.quot_rem' element_index (chunk_size_ c)). lia. }
    destruct (get_chunk_returns c 0 Hwf) as (chunk & Hget & Hchunk & Hlen);
      [lia|].
    unfold get_element, subscript.
    rewrite (decide_False (P:=chunk_size_ c = 0)), Hq, Hr, Hget by lia. cbn.
    split_and!; [done| |].
    + intros Hpos. unfold load. cbn. rewrite Hchunk.
      by rewrite decide_False by nia.
    + intros Hone. rewrite (decide_True _ _ Hone), decide_False by lia.
      cbn. unfold at_index. by rewrite zlookup_None by lia.
Qed.

Lemma negative_index_unchecked_witness :
  get (chunks_ Examples.two_chunks) (-1) ≠ Fatal
  ∧ get (chunks_ Examples.two_chunks) (-1) = Undefined
  ∧ get_chunk Examples.two_chunks (-1) = Undefined
  ∧ (-3 ≤ - 4 →
       -3 `quot` 4 < 0
       ∧ get_element Examples.two_chunks (-3) = Undefined
       ∧ (1 = 1 → subscript Examples.two_chunks (-3) = Undefined))
  ∧ (- 4 < -3 → 0 < 2 →
       get_element Examples.two_chunks (-3) = Returns (Ptr 0 (-3 * 1))
       ∧ (0 < 1 → load Examples.two_chunks (Ptr 0 (-3 * 1)) 1 = Undefined)
       ∧ (1 = 1 → subscript Examples.two_chunks (-3) = Undefined)).
Proof.
  apply (negative_index_unchecked Examples.two_chunks (-1) (-3)).
  - split; cbn; [lia|lia|reflexivity|repeat constructor].
  - lia.
  - lia.
Defined.

(** * Further properties of the code *)

Lemma zlookup_app {A} (l k : list A) (i : Z) :
  zlookup (l ++ k) i
  = if decide (i < zlen l) then zlookup l i else zlookup k (i - zlen l).
Proof.
  unfold zlookup, zlen. destruct (decide (0 ≤ i)).
  - case_decide.
    + by rewrite lookup_app_l by lia.
    + rewrite decide_True by lia. rewrite lookup_app_r by lia. f_equal. lia.
  - rewrite decide_True by lia. done.
Qed.

Lemma zlookup_replicate {A} (n : nat) (x : A) (i : Z) :
  zlookup (replicate n x) i
  = if decide (0 ≤ i < Z.of_nat n) then Some x else None.
Proof.
  unfold zlookup. destruct (decide (0 ≤ i)).
  - case_decide.
    + apply lookup_replicate_2. lia.
    + apply lookup_ge_None. rewrite length_replicate. lia.
  - by rewrite decide_False by lia.
Qed.

Module ColumnContents.
Import ThreadSafeVector ThreadSafeVectorFacts.
Import ConcurrentVectorImpl ConcurrentVectorImplFacts.
Section Impl.
Context {T : Type}.
Variable dflt : T.
Implicit Types c : @ConcurrentVectorImpl.t T.

(** The components of a column after a growth: those it had, and the
    value of a value-initialised slot in the chunks added. *)
Lemma cell_grow_to_at_least c n c1 :
  wf c → grow_to_at_least dflt c n = Returns c1 →
  ∃ q, is_ceil_div n (chunk_size_ c) q
    ∧ wf c1 ∧ is_scalar c1 = is_scalar c ∧ chunk_size_ c1 = chunk_size_ c
    ∧ Dim c1 = Dim c
    ∧ num_chunk c1 = Z.max (num_chunk c) q
    ∧ ∀ ch pos, cell c1 ch pos =
        if decide (ch < num_chunk c) then cell c ch pos
        else if decide (ch < q ∧ 0 ≤ pos < Dim c * chunk_size_ c)
        then Some dflt else None.
Proof.
  intros Hwf Hgrow.
  destruct (grow_to_at_least_returns dflt c n Hwf) as (q & Hq & Hret).
  rewrite Hret in Hgrow. injection Hgrow as <-. exists q.
  split; [done|]. split; [by apply wf_grow|]. split_and!; [done..|].
  pose proof Hwf as [Hcs Hdim Hpub _]. red in Hpub.
  intros ch pos. unfold cell, num_chunk, size. cbn.
  rewrite zlookup_app, <- Hpub. case_decide; [done|].
  rewrite zlookup_replicate.
  destruct (decide (0 ≤ ch - size_ (chunks_ c) < Z.of_nat (Z.to_nat (q - size_ (chunks_ c))))).
  - cbn. rewrite zlookup_replicate.
    destruct (decide (0 ≤ pos < Z.of_nat (Z.to_nat (Dim c * chunk_size_ c)))).
    + by rewrite decide_True by lia.
    + by rewrite decide_False by lia.
  - cbn. by rewrite decide_False by lia.
Qed.

(** The components of a column after [set_data]. *)
Lemma set_data_cells c off source cnt :
  wf c → 0 ≤ off → 0 < cnt → off + cnt ≤ int64_max →
  cnt * Dim c ≤ zlen source →
  ∃ c' q, set_data dflt c off source cnt = Returns c'
    ∧ is_ceil_div (off + cnt) (chunk_size_ c) q
    ∧ wf c' ∧ is_scalar c' = is_scalar c ∧ chunk_size_ c' = chunk_size_ c
    ∧ Dim c' = Dim c
    ∧ num_chunk c' = Z.max (num_chunk c) q
    ∧ ∀ ch r j, 0 ≤ r < chunk_size_ c → 0 ≤ j < Dim c →
        cell c' ch (r * Dim c + j) =
          if decide (off ≤ ch * chunk_size_ c + r < off + cnt)
          then zlookup source ((ch * chunk_size_ c + r - off) * Dim c + j)
          else if decide (ch < num_chunk c) then cell c ch (r * Dim c + j)
          else if decide (ch < q) then Some dflt else None.
Proof.
  intros Hwf Hoff Hcnt Hmax Hsrc.
  destruct (set_data_written dflt c off source cnt)
    as (c1 & c' & Hgrow & Hset & [Hwf' Hshape Hst Hkept] & Hcap); [done..|].
  destruct (cell_grow_to_at_least c _ c1 Hwf Hgrow)
    as (q & Hq & Hwf1 & Hs1 & Hcs1 & Hdim1 & Hnum1 & Hcell1).
  destruct Hshape as (Hs & Hcs & Hdim & Hnum).
  exists c', q. split_and!; [done|done|done|congruence..|].
  intros ch r j Hr Hj. rewrite <- Hcs1, <- Hcs, <- Hdim1, <- Hdim in *.
  case_decide as Hin.
  - by apply Hst.
  - rewrite Hkept by done. rewrite Hcell1.
    rewrite Hcs, Hdim, Hcs1, Hdim1 in *.
    case_decide; [done|].
    destruct (decide (ch < q)).
    + by rewrite decide_True by nia.
    + by rewrite decide_False by tauto.
Qed.

End Impl.
End ColumnContents.

Import ColumnContents.

(** X1. [set_data] leaves the other elements alone: where the sum of
    the offset and the count is a value of [ssize_t], an element of the
    column that is outside the written range is at the same pointer after
    the call and has the components it had. *)
Theorem set_data_keeps_other_elements {T : Type} (dflt : T)
    (c : @ConcurrentVectorImpl.t T) (element_offset : Z) (buf : list T)
    (count e : Z) :
  wf c → 0 ≤ element_offset → 0 < count →
  element_offset + count ≤ int64_max →
  count * Dim c ≤ zlen buf →
  0 ≤ e < num_chunk c * chunk_size_ c →
  ¬ (element_offset ≤ e < element_offset + count) →
  ∃ c' p l, set_data dflt c element_offset buf count = Returns c'
    ∧ get_element c e = Returns p ∧ get_element c' e = Returns p
    ∧ load c p (Dim c) = Returns l ∧ load c' p (Dim c') = Returns l.
Proof.
  intros Hwf Hoff Hcnt Hmax Hbuf He Hout.
  destruct (set_data_cells dflt c element_offset buf count)
    as (c' & q & Hset & Hq & Hwf' & Hs & Hcs & Hdim & Hnum & Hcell); [done..|].
  assert (0 ≤ e < num_chunk c' * chunk_size_ c') as He'
    by (rewrite Hnum, Hcs; pose proof Hwf as [? _ _ _]; nia).
  destruct (element_chunk c e Hwf He) as (Hq0 & Hr & Hqr).
  destruct (load_element c e Hwf He) as (l & Hl & Hlc).
  destruct (load_element c' e Hwf' He') as (l' & Hl' & Hlc').
  exists c', (Ptr (e `quot` chunk_size_ c) (e `rem` chunk_size_ c * Dim c)), l.
  split; [done|]. split; [by apply get_element_returns|].
  split; [rewrite <- Hcs, <- Hdim; by apply get_element_returns|].
  split; [done|]. rewrite Hcs, Hdim in Hl', Hlc'. rewrite Hdim, Hl'. f_equal.
  apply zlookup_ext. intros j. rewrite Hlc, Hlc'. case_decide; [|done].
  rewrite Hcell by done. rewrite decide_False by lia.
  by rewrite decide_True by lia.
Qed.

Lemma set_data_keeps_other_elements_witness :
  ∃ c' p l, set_data 0 Examples.two_chunks 2 [7; 8; 9] 3 = Returns c'
    ∧ get_element Examples.two_chunks 6 = Returns p
    ∧ get_element c' 6 = Returns p
    ∧ load Examples.two_chunks p (Dim Examples.two_chunks) = Returns l
    ∧ load c' p (Dim c') = Returns l.
Proof.
  apply (set_data_keeps_other_elements 0 Examples.two_chunks 2 [7; 8; 9] 3 6).
  - split; cbn; [lia|lia|reflexivity|repeat constructor].
  - lia.
  - lia.
  - unfold int64_max. lia.
  - unfold zlen. cbn. lia.
  - cbn. lia.
  - lia.
Defined.



(** X3. Growth moves nothing: a chunk that [get_chunk] returned before a
    call of [grow_to_at_least] is returned at the same index after it,
    and so is the pointer of [get_element], for any state of the
    column. *)
Theorem grow_to_at_least_keeps_chunks {T : Type} (dflt : T)
    (c c' : @ConcurrentVectorImpl.t T) (n : Z) :
  grow_to_at_least dflt c n = Returns c' →
  (∀ i chunk, get_chunk c i = Returns chunk → get_chunk c' i = Returns chunk)
  ∧ (∀ e p, get_element c e = Returns p →
       get_element c' e = Returns p
       ∧ ∀ m, load c' p m = load c p m).
Proof.
  intros Hgrow.
  assert (chunk_size_ c' = chunk_size_ c ∧ Dim c' = Dim c) as [Hcs Hdim].
  { by apply grow_to_at_least_extends in Hgrow as (_ & ? & ? & _). }
  unfold grow_to_at_least in Hgrow.
  apply bind_returns in Hgrow as (q & _ & (s' & Hs' & [= <-])%bind_returns).
  apply emplace_to_at_least_grows in Hs' as (l & Hv & Hn).
  pose proof (zlen_nonneg l) as Hl.
  assert (∀ i chunk, get (chunks_ c) i = Returns chunk →
            zlookup (vec_ (chunks_ c)) i = Some chunk
            ∧ zlookup (vec_ s') i = Some chunk
            ∧ get s' i = Returns chunk) as Hget.
  { intros i chunk. unfold get. case_decide; [|done].
    destruct (zlookup (vec_ (chunks_ c)) i) as [x|] eqn:Hx; [|done].
    intros [= ->]. rewrite decide_True by lia.
    apply zlookup_lt in Hx as Hi. rewrite Hv, zlookup_app.
    rewrite decide_True, Hx by lia. done. }
  split.
  - intros i chunk Hi. by apply Hget in Hi as (_ & _ & ?).
  - intros e p. unfold get_element, get_chunk. cbn in *.
    case_decide; [done|].
    intros (chunk & (Hold & Hnew & Hg)%Hget & [= <-])%bind_returns.
    rewrite Hg. split; [done|]. intros m. unfold load. cbn.
    by rewrite Hold, Hnew.
Qed.

Lemma grow_to_at_least_keeps_chunks_witness :
  (∀ i chunk, get_chunk Examples.two_chunks i = Returns chunk →
     get_chunk Examples.three_chunks i = Returns chunk)
  ∧ (∀ e p, get_element Examples.two_chunks e = Returns p →
       get_element Examples.three_chunks e = Returns p
       ∧ ∀ m, load Examples.three_chunks p m = load Examples.two_chunks p m).
Proof.
  apply (grow_to_at_least_keeps_chunks 0 Examples.two_chunks
           Examples.three_chunks 10).
  reflexivity.
Defined.

(** X4. A negative count writes nothing: for an offset that is not
    negative, [set_data] with [element_count < 0] is the call
    [grow_to_at_least(element_offset + element_count)] and no more. *)
Theorem set_data_negative_count {T : Type} (dflt : T)
    (c : @ConcurrentVectorImpl.t T) (element_offset : Z) (source : list T)
    (element_count : Z) :
  wf c → 0 ≤ element_offset → element_count < 0 →
  set_data dflt c element_offset source element_count
  = grow_to_at_least dflt c (element_offset + element_count)
  ∧ returned (grow_to_at_least dflt c (element_offset + element_count)).
Proof.
  intros Hwf Hoff Hcnt. pose proof Hwf as [Hcs _ _ _].
  destruct (grow_to_at_least_returns dflt c (element_offset + element_count) Hwf)
    as (q & _ & Hgrow).
  unfold set_data. rewrite decide_False by lia.
  rewrite add_ssize_opposite by lia. rewrite Hgrow.
  split; [|by eexists]. cbn.
  pose proof (Z.rem_bound_pos element_offset (chunk_size_ c) Hoff Hcs).
  rewrite decide_False by lia. rewrite decide_True by lia.
  unfold fill_chunk. by rewrite decide_True by lia.
Qed.

Lemma set_data_negative_count_witness :
  set_data 0 Examples.two_chunks 11 [7; 8; 9] (-1)
  = grow_to_at_least 0 Examples.two_chunks (11 + -1)
  ∧ returned (grow_to_at_least 0 Examples.two_chunks (11 + -1)).
Proof.
  apply (set_data_negative_count 0 Examples.two_chunks 11 [7; 8; 9] (-1)).
  - split; cbn; [lia|lia|reflexivity|repeat constructor].
  - lia.
  - lia.
Defined.

(** X5. A negative offset is not refused: with
    [- chunk_size_ < element_offset < 0] the chunk index is 0 and the
    offset in the chunk negative, and where chunk 0 is there the copy of
    [set_data] starts before the first component of chunk 0. *)
Theorem set_data_negative_offset {T : Type} (dflt : T)
    (c : @ConcurrentVectorImpl.t T) (element_offset : Z) (source : list T)
    (element_count : Z) :
  wf c → - chunk_size_ c < element_offset < 0 → 0 < element_count →
  0 < Dim c → 0 < element_offset + element_count ∨ 0 < num_chunk c →
  set_data dflt c element_offset source element_count = Undefined.
Proof.
  intros Hwf Hoff Hcnt Hdim Hsome. pose proof Hwf as [Hcs _ _ _].
  destruct (grow_to_at_least_returns dflt c (element_offset + element_count) Hwf)
    as (q & Hq & Hgrow).
  pose proof (wf_grow dflt c q Hwf) as Hwf1.
  unfold set_data. rewrite decide_False by lia.
  rewrite add_ssize_opposite by lia. rewrite Hgrow.
  match type of Hgrow with _ = Returns ?x => set (c1 := x) in * end.
  assert (chunk_size_ c1 = chunk_size_ c) as Hcs1 by done.
  assert (Dim c1 = Dim c) as Hdim1 by done.
  assert (0 < num_chunk c1) as Hnum1.
  { change (num_chunk c1) with (Z.max (num_chunk c) q).
    red in Hq. destruct Hsome; [nia|lia]. }
  clearbody c1. cbn. rewrite decide_False by lia.
  assert (element_offset `quot` chunk_size_ c1 = 0) as ->
    by (apply Z.quot_small_iff; lia).
  assert (element_offset `rem` chunk_size_ c1 = element_offset) as ->.
  { pose proof (Z.quot_rem' element_offset (chunk_size_ c1)).
    assert (element_offset `quot` chunk_size_ c1 = 0)
      by (apply Z.quot_small_iff; lia). lia. }
  destruct (get_chunk_returns c1 0 Hwf1) as (chunk & Hget & _); [lia|].
  unfold get_chunk in Hget.
  assert (∀ n, 0 < n →
            fill_chunk c1 0 element_offset n source 0 = Undefined) as Hfill.
  { intros n Hn. unfold fill_chunk. rewrite decide_False by lia.
    rewrite decide_True by done. rewrite Hget. cbn. unfold copy_n.
    rewrite decide_False by nia. by rewrite decide_False by nia. }
  case_decide; rewrite Hfill by lia; done.
Qed.

Lemma set_data_negative_offset_witness :
  set_data 0 Examples.two_chunks (-1) [7; 8; 9] 3 = Undefined.
Proof.
  apply (set_data_negative_offset 0 Examples.two_chunks (-1) [7; 8; 9] 3).
  - split; cbn; [lia|lia|reflexivity|repeat constructor].
  - cbn. lia.
  - lia.
  - cbn. lia.
  - left. lia.
Defined.



(** X7. Round trip through the scalar accessor: on a column of dimension
    1, after [set_data(element_offset, buf, count)], the sum of the
    offset and the count a value of [ssize_t], the accessor
    [operator[](element_offset + k)] returns [buf[k]], for every [k] of
    [0 .. count - 1]. *)
Theorem set_data_subscript_roundtrip {T : Type} (dflt : T)
    (c : @ConcurrentVectorImpl.t T) (element_offset : Z) (buf : list T)
    (count : Z) :
  wf c → Dim c = 1 → 0 ≤ element_offset → 0 < count →
  element_offset + count ≤ int64_max → count ≤ zlen buf →
  ∃ c', set_data dflt c element_offset buf count = Returns c'
    ∧ ∀ k, 0 ≤ k < count →
        ∃ v, zlookup buf k = Some v
          ∧ subscript c' (element_offset + k) = Returns v.
Proof.
  intros Hwf Hone Hoff Hcnt Hmax Hbuf.
  destruct (set_data_cells dflt c element_offset buf count)
    as (c' & q & Hset & Hq & Hwf' & Hs & Hcs & Hdim & Hnum & Hcell);
    [done|done|done|done|lia|].
  exists c'. split; [done|]. intros k Hk.
  destruct (zlookup_Some buf k) as [v Hv]; [lia|]. exists v. split; [done|].
  pose proof Hwf as [Hcs0 _ _ _]. red in Hq.
  assert (0 ≤ element_offset + k < num_chunk c' * chunk_size_ c') as He
    by (rewrite Hnum, Hcs; nia).
  destruct (element_chunk c' _ Hwf' He) as (Hq0 & Hr & Hqr).
  destruct (get_chunk_returns c' _ Hwf' Hq0) as (chunk & Hget & Hchunk & _).
  unfold subscript. rewrite decide_True by congruence.
  rewrite decide_False by lia. rewrite Hget. cbn. unfold at_index.
  rewrite Hcs in *.
  specialize (Hcell ((element_offset + k) `quot` chunk_size_ c)
                ((element_offset + k) `rem` chunk_size_ c) 0 Hr ltac:(lia)).
  rewrite decide_True in Hcell by lia. unfold cell in Hcell.
  rewrite Hchunk, Hone in Hcell. cbn in Hcell.
  replace ((element_offset + k) `rem` chunk_size_ c * 1 + 0)
    with ((element_offset + k) `rem` chunk_size_ c) in Hcell by lia.
  rewrite Hcell.
  replace (((element_offset + k) `quot` chunk_size_ c * chunk_size_ c +
            (element_offset + k) `rem` chunk_size_ c - element_offset) * 1 + 0)
    with k by lia.
  by rewrite Hv.
Qed.

Lemma set_data_subscript_roundtrip_witness :
  ∃ c', set_data 0 Examples.two_chunks 2 [7; 8; 9] 3 = Returns c'
    ∧ ∀ k, 0 ≤ k < 3 →
        ∃ v, zlookup [7; 8; 9] k = Some v
          ∧ subscript c' (2 + k) = Returns v.
Proof.
  apply (set_data_subscript_roundtrip 0 Examples.two_chunks 2 [7; 8; 9] 3).
  - split; cbn; [lia|lia|reflexivity|repeat constructor].
  - reflexivity.
  - lia.
  - lia.
  - unfold int64_max. lia.
  - unfold zlen. cbn. lia.
Defined.









(** X11. Lookup after growth of the collection: on a collection whose
    counter is right, [emplace_to_at_least(size, args)] with a
    constructor that returns leaves [max(size(), size)] elements; those
    there before are returned as before and every index from the old
    count on returns the element constructed from [args]. *)
Theorem emplace_to_at_least_then_get {Elem Args : Type}
    (construct : Args → outcome Elem) (s : ThreadSafeVector.t Elem)
    (n : Z) (args : Args) (e : Elem) :
  published_ok s → construct args = Returns e →
  ∃ s', emplace_to_at_least construct s n args = Returns s'
    ∧ published_ok s'
    ∧ size s' = Z.max (size s) n
    ∧ ∀ i, 0 ≤ i < size s' →
        get s' i = if decide (i < size s) then get s i else Returns e.
Proof.
  intros Hpub He. rewrite (emplace_to_at_least_returns construct s n args e)
    by done.
  eexists. split; [done|]. red in Hpub. unfold published_ok, size. cbn.
  split; [rewrite zlen_app, zlen_replicate; lia|]. split; [done|].
  intros i Hi. unfold get. cbn. rewrite decide_True by lia.
  rewrite zlookup_app, <- Hpub. case_decide; [done|].
  rewrite zlookup_replicate. by rewrite decide_True by lia.
Qed.

Lemma emplace_to_at_least_then_get_witness :
  ∃ s', emplace_to_at_least (new_chunk 0) (chunks_ Examples.two_chunks) 3 4
        = Returns s'
    ∧ published_ok s'
    ∧ size s' = Z.max (size (chunks_ Examples.two_chunks)) 3
    ∧ ∀ i, 0 ≤ i < size s' →
        get s' i = if decide (i < size (chunks_ Examples.two_chunks))
                   then get (chunks_ Examples.two_chunks) i
                   else Returns [0; 0; 0; 0].
Proof.
  apply (emplace_to_at_least_then_get (new_chunk 0)
           (chunks_ Examples.two_chunks) 3 4 [0; 0; 0; 0]).
  - reflexivity.
  - reflexivity.
Defined.

(** X12. Elements do not share storage: the pointers that [get_element]
    returns for two different elements of the allocated range are inside
    their chunks, and they are in different chunks or [Dim] components
    apart. *)
Theorem get_element_disjoint {T : Type} (c : @ConcurrentVectorImpl.t T)
    (e1 e2 : Z) :
  wf c →
  0 ≤ e1 < num_chunk c * chunk_size_ c →
  0 ≤ e2 < num_chunk c * chunk_size_ c → e1 ≠ e2 →
  ∃ p1 p2, get_element c e1 = Returns p1 ∧ get_element c e2 = Returns p2
    ∧ 0 ≤ p_chunk p1 < num_chunk c
    ∧ 0 ≤ p_pos p1 ∧ p_pos p1 + Dim c ≤ Dim c * chunk_size_ c
    ∧ (p_chunk p1 ≠ p_chunk p2
       ∨ p_pos p1 + Dim c ≤ p_pos p2 ∨ p_pos p2 + Dim c ≤ p_pos p1).
Proof.
  intros Hwf He1 He2 Hne. pose proof Hwf as [Hcs Hdim _ _].
  destruct (element_chunk c e1 Hwf He1) as (Hq1 & Hr1 & Hqr1).
  destruct (element_chunk c e2 Hwf He2) as (Hq2 & Hr2 & Hqr2).
  eexists _, _. split; [by apply get_element_returns|].
  split; [by apply get_element_returns|]. cbn.
  split; [done|]. split; [nia|]. split; [nia|].
  destruct (decide (e1 `quot` chunk_size_ c = e2 `quot` chunk_size_ c))
    as [Heq|]; [|by left].
  right. rewrite Heq in Hqr1.
  destruct (decide (e1 `rem` chunk_size_ c < e2 `rem` chunk_size_ c));
    [left|right]; nia.
Qed.

Lemma get_element_disjoint_witness :
  ∃ p1 p2, get_element Examples.two_chunks 3 = Returns p1
    ∧ get_element Examples.two_chunks 4 = Returns p2
    ∧ 0 ≤ p_chunk p1 < num_chunk Examples.two_chunks
    ∧ 0 ≤ p_pos p1
    ∧ p_pos p1 + Dim Examples.two_chunks
      ≤ Dim Examples.two_chunks * chunk_size_ Examples.two_chunks
    ∧ (p_chunk p1 ≠ p_chunk p2
       ∨ p_pos p1 + Dim Examples.two_chunks ≤ p_pos p2
       ∨ p_pos p2 + Dim Examples.two_chunks ≤ p_pos p1).
Proof.
  apply (get_element_disjoint Examples.two_chunks 3 4).
  - split; cbn; [lia|lia|reflexivity|repeat constructor].
  - cbn. lia.
  - cbn. lia.
  - lia.
Defined.



Module NoAssertion.
Import ThreadSafeVector ThreadSafeVectorFacts.
Import ConcurrentVectorImpl ConcurrentVectorImplFacts.
Section Impl.
Context {T : Type}.
Variable dflt : T.
Implicit Types c : @ConcurrentVectorImpl.t T.

Lemma fill_chunk_no_assert c chunk_id co n (source : list T) so :
  wf c → (0 < n → 0 ≤ chunk_id < num_chunk c) →
  fill_chunk c chunk_id co n source so ≠ Fatal
  ∧ ∀ c', fill_chunk c chunk_id co n source so = Returns c' →
      wf c' ∧ chunk_size_ c' = chunk_size_ c ∧ num_chunk c' = num_chunk c.
Proof.
  intros Hwf Hid. split.
  - unfold fill_chunk. case_decide; [done|].
    destruct (get_chunk_returns c chunk_id Hwf) as (chunk & Hget & _); [lia|].
    unfold get_chunk in Hget. unfold num_chunk in Hid.
    rewrite decide_True, Hget by lia. cbn.
    unfold copy_n. by repeat case_decide.
  - intros c' [Hext Hnum]%fill_chunk_extends.
    split; [by eapply wf_extends|]. split; [|done].
    by destruct Hext as (_ & ? & _).
Qed.

Lemma middle_no_assert (source : list T) (k : @cursor T) :
  wf (cur_col k) → 0 ≤ cur_chunk_id k →
  cur_chunk_id k * chunk_size_ (cur_col k) + cur_element_count k
  ≤ num_chunk (cur_col k) * chunk_size_ (cur_col k) →
  middle source k ≠ Fatal
  ∧ ∀ k', middle source k = Returns k' →
      wf (cur_col k') ∧ 0 ≤ cur_chunk_id k'
      ∧ cur_chunk_id k' * chunk_size_ (cur_col k') + cur_element_count k'
        ≤ num_chunk (cur_col k') * chunk_size_ (cur_col k').
Proof.
  funelim (middle source k); intros Hwf Hid Hcap.
  - split; [done|]. by intros k' [= <-].
  - done.
  - destruct (fill_chunk_no_assert (cur_col k) (cur_chunk_id k) 0
                (chunk_size_ (cur_col k)) source (cur_source_offset k) Hwf)
      as [_ Hret]; [intros _; nia|].
    destruct (Hret _ Heq) as (Hwf' & Hcs' & Hnum').
    apply H; cbn; [done|lia|]. rewrite Hcs', Hnum'. nia.
  - destruct (fill_chunk_no_assert (cur_col k) (cur_chunk_id k) 0
                (chunk_size_ (cur_col k)) source (cur_source_offset k) Hwf)
      as [Hno _]; [intros _; nia|]. by rewrite Heq in Hno.
  - done.
Qed.
End Impl.
End NoAssertion.

(** X14. With an offset that is not negative and a sum of the offset and
    the count that is no more than [INT64_MAX], the assertion of
    [fill_chunk] never fails inside [set_data]: whatever the count and
    the source, the growth that comes first has allocated every chunk
    that a copy is made into. *)
Theorem set_data_no_assertion {T : Type} (dflt : T)
    (c : @ConcurrentVectorImpl.t T) (element_offset : Z) (source : list T)
    (element_count : Z) :
  wf c → 0 ≤ element_offset →
  element_offset + element_count ≤ int64_max →
  set_data dflt c element_offset source element_count ≠ Fatal.
Proof.
  intros Hwf Hoff Hmax. unfold set_data. case_decide; [done|].
  assert (add_ssize element_offset element_count
          = element_offset + element_count) as ->.
  { destruct (decide (0 ≤ element_count)).
    - apply add_ssize_in_range. unfold in_int64, int64_min. lia.
    - apply add_ssize_opposite. lia. }
  destruct (grow_to_at_least_returns dflt c (element_offset + element_count) Hwf)
    as (q & Hq & Hgrow).
  pose proof (wf_grow dflt c q Hwf) as Hwf1. rewrite Hgrow.
  match type of Hgrow with _ = Returns ?x => set (c1 := x) in * end.
  assert (element_offset + element_count ≤ num_chunk c1 * chunk_size_ c1) as Hcap.
  { change (num_chunk c1) with (Z.max (num_chunk c) q).
    change (chunk_size_ c1) with (chunk_size_ c).
    pose proof Hwf as [? _ _ _]. red in Hq. nia. }
  clearbody c1. cbn. pose proof Hwf1 as [Hcs _ _ _].
  rewrite decide_False by lia.
  pose proof (Z.quot_rem' element_offset (chunk_size_ c1)) as Hqr.
  pose proof (Z.rem_bound_pos element_offset (chunk_size_ c1) Hoff Hcs) as Hrem.
  pose proof (Z.quot_pos element_offset (chunk_size_ c1) Hoff Hcs) as Hquot.
  set (chunk_id := element_offset `quot` chunk_size_ c1) in *.
  set (co := element_offset `rem` chunk_size_ c1) in *.
  case_decide as Hone.
  - apply NoAssertion.fill_chunk_no_assert; [done|]. intros ?. nia.
  - destruct (NoAssertion.fill_chunk_no_assert c1 chunk_id co
                (chunk_size_ c1 - co) source 0 Hwf1) as [Hno Hret];
      [intros _; nia|].
    destruct (fill_chunk c1 chunk_id co (chunk_size_ c1 - co) source 0)
      as [c2| |] eqn:Hfill; [|done|done].
    destruct (Hret c2 eq_refl) as (Hwf2 & Hcs2 & Hnum2). cbn.
    destruct (NoAssertion.middle_no_assert source
                (Cursor c2 (chunk_id + 1) (0 + (chunk_size_ c2 - co))
                   (element_count - (chunk_size_ c1 - co))))
      as [Hnom Hretm]; cbn; [done|lia|rewrite Hcs2, Hnum2; nia|].
    destruct (middle _ _) as [k| |] eqn:Hmid; [|done|done].
    destruct (Hretm k eq_refl) as (Hwfk & Hidk & Hcapk). cbn.
    case_decide; [|done]. pose proof Hwfk as [Hcsk _ _ _].
    apply NoAssertion.fill_chunk_no_assert; [done|]. intros _. nia.
Qed.

Lemma set_data_no_assertion_witness :
  set_data 0 Examples.two_chunks 6 [7; 8] 5 ≠ Fatal.
Proof.
  apply (set_data_no_assertion 0 Examples.two_chunks 6 [7; 8] 5).
  - split; cbn; [lia|lia|reflexivity|repeat constructor].
  - lia.
  - unfold int64_max. lia.
Defined.


